(** * Verification of the agent-step engine of codebuff

    A shallow embedding of:
    - [packages/internal/src/db/transaction.ts] (getRetryableErrorDescription,
      isRetryablePostgresError, withSerializableTransaction);
    - [common/src/constants/free-agents.ts] (isFreeAgent);
    - [packages/agent-runtime/src/tools/handlers/tool/read-docs.ts]
      (handleReadDocs);
    - processStream of the agent runtime (its tool-stream module): the
      streaming tool dispatcher with its promise chain
      [previousToolCallFinished]. *)

From Stdlib Require Import String Ascii List Arith Bool ZArith Lia.
Import ListNotations.
Set Warnings "-register-all".


(** ** JavaScript values, as far as the code inspects them *)
Module JS.

Inductive jsval :=
| JUndefined
| JNull
| JBool (b : bool)
| JNum (n : Z)
| JStr (s : string)
| JObj (props : list (string * jsval))  (** own properties of a plain object *)
| JFun (name : string).                  (** a function value *)

(** The property names every plain object inherits from [Object.prototype]. *)
Definition object_prototype_members : list string :=
  [ "constructor"; "__defineGetter__"; "__defineSetter__"; "hasOwnProperty";
    "__lookupGetter__"; "__lookupSetter__"; "isPrototypeOf";
    "propertyIsEnumerable"; "toString"; "valueOf"; "__proto__";
    "toLocaleString" ]%string.

Definition is_prototype_member (k : string) : bool :=
  existsb (String.eqb k) object_prototype_members.

Fixpoint assoc {A} (l : list (string * A)) (k : string) : option A :=
  match l with
  | [] => None
  | (k', v) :: l' => if String.eqb k k' then Some v else assoc l' k
  end.

(** [!v]: the falsy values of JavaScript. *)
Definition truthy (v : jsval) : bool :=
  match v with
  | JUndefined | JNull => false
  | JBool b => b
  | JNum n => negb (Z.eqb n 0)
  | JStr s => negb (String.eqb s "")
  | JObj _ | JFun _ => true
  end.

(** [typeof v === 'object'] *)
Definition typeof_object (v : jsval) : bool :=
  match v with JNull | JObj _ => true | _ => false end.

(** Property read [v[k]] on an object: own property first, then the members
    inherited from [Object.prototype] (functions). *)
Definition get (v : jsval) (k : string) : jsval :=
  match v with
  | JObj props =>
      match assoc props k with
      | Some x => x
      | None => if is_prototype_member k then JFun k else JUndefined
      end
  | _ => JUndefined
  end.

End JS.

(** ** packages/internal/src/db/transaction.ts *)
Module Transaction.
Import JS.

(** A string-valued record literal, [Record<string, string>]. *)
Definition RETRYABLE_PG_ERROR_CODES : list (string * string) :=
  [ ("40001", "serialization_failure");
    ("40003", "statement_completion_unknown");
    ("40P01", "deadlock_detected");
    ("08000", "connection_exception");
    ("08001", "sqlclient_unable_to_establish_sqlconnection");
    ("08003", "connection_does_not_exist");
    ("08004", "sqlserver_rejected_establishment_of_sqlconnection");
    ("08006", "connection_failure");
    ("08P01", "protocol_violation");
    ("57014", "query_canceled");
    ("57P01", "admin_shutdown");
    ("57P02", "crash_shutdown");
    ("57P03", "cannot_connect_now");
    ("53000", "insufficient_resources");
    ("53100", "disk_full");
    ("53200", "out_of_memory");
    ("53300", "too_many_connections") ]%string.

Definition retryableClasses : list (string * string) :=
  [ ("08", "connection_exception");
    ("40", "transaction_rollback");
    ("53", "insufficient_resources");
    ("57", "operator_intervention") ]%string.

(** What [R[k]] evaluates to after [k in R] succeeded on a record literal:
    an own string value, or a member inherited from [Object.prototype]. *)
Inductive description :=
| DescStr (s : string)
| DescProtoMember (name : string).

(** [k in R ? R[k] : <absent>] for a record literal [R]. *)
Definition record_in (R : list (string * string)) (k : string)
  : option description :=
  match assoc R k with
  | Some v => Some (DescStr v)
  | None => if is_prototype_member k then Some (DescProtoMember k) else None
  end.

(** Template-literal rendering [`${d}`] of a looked-up value. *)
Definition desc_to_string (d : description) : string :=
  match d with
  | DescStr s => s
  | DescProtoMember m => ("function " ++ m ++ "() { [native code] }")%string
  end.

Definition getRetryableErrorDescription (error : jsval) : option description :=
  if negb (truthy error) || negb (typeof_object error) then None
  else
    match get error "code" with
    | JStr errorCode =>
        match record_in RETRYABLE_PG_ERROR_CODES errorCode with
        | Some d => Some d
        | None =>
            let errorClass := substring 0 2 errorCode in
            match record_in retryableClasses errorClass with
            | Some c => Some (DescStr (desc_to_string c ++ "_" ++ errorCode))
            | None => None
            end
        end
    | _ => None
    end.

Definition isRetryablePostgresError (error : jsval) : bool :=
  match getRetryableErrorDescription error with
  | Some _ => true
  | None => false
  end.

Inductive isolationLevel :=
| ReadUncommitted | ReadCommitted | RepeatableRead | Serializable.

Inductive outcome (A : Type) :=
| Ok (v : A)
| Err (e : jsval).
Arguments Ok {A} v.
Arguments Err {A} e.

(** Modelled from the spec: [withRetry] of common/util/promise (not among
    the sources). Section 4.7: retry the operation while [retryIf] accepts
    the error, capped at [maxRetries] attempts; any other error propagates
    at once; after the last attempt the last error is rethrown. The backoff
    sleeps and the [onRetry] log do not change the result and are left out.
    The operation threads a state [St] (here: the calls the database saw). *)
Fixpoint withRetry_go {St A : Type} (operation : St -> outcome A * St)
    (retryIf : jsval -> bool) (maxRetries attempt remaining : nat)
    (lastError : jsval) (st : St) : outcome A * St :=
  match remaining with
  | 0 => (Err lastError, st)
  | S r =>
      match operation st with
      | (Ok v, st') => (Ok v, st')
      | (Err e, st') =>
          if negb (retryIf e) || Nat.eqb attempt (maxRetries - 1)
          then (Err e, st')
          else withRetry_go operation retryIf maxRetries (S attempt) r e st'
      end
  end.

Definition withRetry {St A : Type} (operation : St -> outcome A * St)
    (maxRetries : nat) (retryIf : jsval -> bool) (st : St) : outcome A * St :=
  withRetry_go operation retryIf maxRetries 0 maxRetries JNull st.

(** [db.transaction(callback, { isolationLevel })]: the database answers the
    [n]-th call with [responses n]; the state records the isolation level of
    every call made. *)
Definition db_transaction {A : Type} (responses : nat -> outcome A)
    (isolation : isolationLevel) (calls : list isolationLevel)
  : outcome A * list isolationLevel :=
  (responses (length calls), calls ++ [isolation]).

Definition withSerializableTransaction {A : Type} (responses : nat -> outcome A)
  : outcome A * list isolationLevel :=
  withRetry (fun calls => db_transaction responses Serializable calls)
    5
    (fun error => match getRetryableErrorDescription error with
                  | Some _ => true | None => false end)
    [].

End Transaction.

(** ** common/src/constants/free-agents.ts *)
Module FreeAgents.

Definition FREE_TIER_AGENTS : list string :=
  [ "file-picker"; "file-picker-max"; "file-lister"; "researcher-web";
    "researcher-docs" ]%string.

(** Split at the first occurrence of character [c]. *)
Fixpoint split_first (c : Ascii.ascii) (s : string) : string * option string :=
  match s with
  | EmptyString => (EmptyString, None)
  | String a s' =>
      if Ascii.eqb a c then (EmptyString, Some s')
      else let '(l, r) := split_first c s' in (String a l, r)
  end.

(** Modelled from the spec: [parseAgentId] of common/util/agent-id-parsing
    (not among the sources). Section 6: an agent identifier is
    [[<publisher>/]<id>[@<version>]]; the agent id is the part after the
    publisher and before the version, and no agent id is parsed when that
    part is empty. *)
Definition parseAgentId (fullAgentId : string) : option string :=
  let rest :=
    match split_first "/"%char fullAgentId with
    | (_, Some afterPublisher) => afterPublisher
    | (whole, None) => whole
    end in
  let '(agentId, _) := split_first "@"%char rest in
  if String.eqb agentId "" then None else Some agentId.

Definition isFreeAgent (fullAgentId : string) : bool :=
  match parseAgentId fullAgentId with
  | Some agentId =>
      if String.eqb agentId "" then false
      else existsb (String.eqb agentId) FREE_TIER_AGENTS
  | None => false
  end.

End FreeAgents.

(** ** processStream: the streaming tool dispatcher *)
Module Stream.

(** Messages of the log ([common/types/messages/codebuff-message]). *)
Inductive Part (Input : Type) :=
| TextPart (text : string)
| ToolCallPart (toolCallId : nat) (toolName : string) (input : Input).

Inductive Message (Input Output : Type) :=
| SystemMsg (content : string)
| UserMsg (content : string)
| AssistantMsg (content : list (Part Input))
| ToolMsg (toolCallId : nat) (toolName : string) (output : Output).

Arguments TextPart {Input} text.
Arguments ToolCallPart {Input} toolCallId toolName input.
Arguments SystemMsg {Input Output} content.
Arguments UserMsg {Input Output} content.
Arguments AssistantMsg {Input Output} content.
Arguments ToolMsg {Input Output} toolCallId toolName output.

(** What [onResponseChunk] receives: [string | PrintModeEvent]. *)
Inductive Chunk (Input Output : Type) :=
| ChunkString (s : string)
| ChunkText (text : string)
| ChunkReasoning (text : string)
| ChunkError (message : string)
| ChunkToolCall (toolCallId : nat) (toolName : string) (input : Input)
| ChunkToolResult (toolCallId : nat) (output : Output).

Arguments ChunkString {Input Output} s.
Arguments ChunkText {Input Output} text.
Arguments ChunkReasoning {Input Output} text.
Arguments ChunkError {Input Output} message.
Arguments ChunkToolCall {Input Output} toolCallId toolName input.
Arguments ChunkToolResult {Input Output} toolCallId output.

(** Modelled from the spec: [processStreamWithTools] of the tool-stream
    parser (not among the sources). Section 4.3: the parser consumes the
    model's stream and, in stream order, passes text and errors to its
    [onResponseChunk] option, yields text, reasoning, error and tool-call
    chunks to the consumer, hands structured tool calls to the processor of
    their name ([onTagEnd]) and inline (tag-grammar) calls to
    [executeXmlToolCall], which it awaits before going on. A parser run is
    the sequence of these actions. *)
Inductive StreamChunk (Input : Type) :=
| YText (text : string)
| YReasoning (text : string)
| YError (message : string)
| YToolCall (toolName : string) (input : Input).

Inductive ParserAction (Input : Type) :=
| PCallbackText (text : string)
| PCallbackError (message : string)
| PYield (chunk : StreamChunk Input)
| PStructured (toolName : string) (input : Input)
| PXml (toolName : string) (input : Input).

Arguments YText {Input} text.
Arguments YReasoning {Input} text.
Arguments YError {Input} message.
Arguments YToolCall {Input} toolName input.
Arguments PCallbackText {Input} text.
Arguments PCallbackError {Input} message.
Arguments PYield {Input} chunk.
Arguments PStructured {Input} toolName input.
Arguments PXml {Input} toolName input.

(** Promises of the serialization spine: an already resolved one, the
    [streamDonePromise], and the execution promise of the [k]-th tool
    execution started in the step. *)
Inductive Promise :=
| PResolved
| PStreamDone
| PTool (k : nat).

Definition promise_eqb (p q : Promise) : bool :=
  match p, q with
  | PResolved, PResolved | PStreamDone, PStreamDone => true
  | PTool k, PTool l => Nat.eqb k l
  | _, _ => false
  end.

(** A started tool execution: the call it runs and the promise it awaits
    first ([previousToolCallFinished] as captured at dispatch). *)
Record Task (Input : Type) := {
  task_id : nat;
  task_name : string;
  task_input : Input;
  task_xml : bool;
  task_prev : Promise;
}.
Arguments task_id {Input} t.
Arguments task_name {Input} t.
Arguments task_input {Input} t.
Arguments task_xml {Input} t.
Arguments task_prev {Input} t.
Arguments Build_Task {Input} task_id task_name task_input task_xml task_prev.

(** A tool call as recorded in [toolCalls] / [toolCallsToAddToMessageHistory]. *)
Record ToolCall (Input : Type) := {
  tc_id : nat; tc_name : string; tc_input : Input }.
Arguments tc_id {Input} t.
Arguments tc_name {Input} t.
Arguments tc_input {Input} t.
Arguments Build_ToolCall {Input} tc_id tc_name tc_input.

(** Where the step's control is: at the top of the stream consumption loop,
    inside [streamWithTags.next()], awaiting an inline tool's promise inside
    [executeXmlToolCall], awaiting [previousToolCallFinished] after the loop,
    or returned. *)
Inductive Pc :=
| LoopTop
| InNext
| AwaitXml (p : Promise)
| AwaitFinal (p : Promise)
| Done.

(** The local mutable state of processStream. *)
Record Buffers (Input Output : Type) := {
  toolCalls : list (ToolCall Input);
  toolCallsToAddToMessageHistory : list (ToolCall Input);
  toolResults : list (Message Input Output);
  toolResultsToAddToMessageHistory : list (Message Input Output);
  assistantMessages : list (Message Input Output);
  errorMessages : list (Message Input Output);
  hadToolCallError : bool;
  fullResponseChunks : list string;
  emitted : list (Chunk Input Output);  (** every chunk given to [onResponseChunk] *)
}.
Arguments toolCalls {Input Output} b.
Arguments toolCallsToAddToMessageHistory {Input Output} b.
Arguments toolResults {Input Output} b.
Arguments toolResultsToAddToMessageHistory {Input Output} b.
Arguments assistantMessages {Input Output} b.
Arguments errorMessages {Input Output} b.
Arguments hadToolCallError {Input Output} b.
Arguments fullResponseChunks {Input Output} b.
Arguments emitted {Input Output} b.
Arguments Build_Buffers {Input Output}.

(** The serialization spine and the executions it orders. *)
Record Spine (Input : Type) := {
  streamDoneResolved : bool;
  previousToolCallFinished : Promise;
  nextId : nat;                 (** the next [generateCompactId()] *)
  tasks : list (Task Input);    (** started executions, the [k]-th is [PTool k] *)
  finished : list nat;          (** executions whose promise resolved, in order *)
}.
Arguments streamDoneResolved {Input} s.
Arguments previousToolCallFinished {Input} s.
Arguments nextId {Input} s.
Arguments tasks {Input} s.
Arguments finished {Input} s.
Arguments Build_Spine {Input}.

Record State (Input Output : Type) := {
  aborted : bool;                (** [signal.aborted] *)
  script : list (ParserAction Input);
  pc : Pc;
  messageHistoryBeforeStream : list (Message Input Output);
  messageHistory : list (Message Input Output);  (** [agentState.messageHistory] *)
  buf : Buffers Input Output;
  spine : Spine Input;
}.
Arguments aborted {Input Output} s.
Arguments script {Input Output} s.
Arguments pc {Input Output} s.
Arguments messageHistoryBeforeStream {Input Output} s.
Arguments messageHistory {Input Output} s.
Arguments buf {Input Output} s.
Arguments spine {Input Output} s.
Arguments Build_State {Input Output}.

Definition set_pc {I O} (s : State I O) (p : Pc) : State I O :=
  Build_State (aborted s) (script s) p (messageHistoryBeforeStream s)
    (messageHistory s) (buf s) (spine s).
Definition set_script {I O} (s : State I O) (l : list (ParserAction I)) : State I O :=
  Build_State (aborted s) l (pc s) (messageHistoryBeforeStream s)
    (messageHistory s) (buf s) (spine s).
Definition set_aborted {I O} (s : State I O) : State I O :=
  Build_State true (script s) (pc s) (messageHistoryBeforeStream s)
    (messageHistory s) (buf s) (spine s).
Definition set_history {I O} (s : State I O) (h : list (Message I O)) : State I O :=
  Build_State (aborted s) (script s) (pc s) (messageHistoryBeforeStream s)
    h (buf s) (spine s).
Definition set_buf {I O} (s : State I O) (b : Buffers I O) : State I O :=
  Build_State (aborted s) (script s) (pc s) (messageHistoryBeforeStream s)
    (messageHistory s) b (spine s).
Definition set_spine {I O} (s : State I O) (p : Spine I) : State I O :=
  Build_State (aborted s) (script s) (pc s) (messageHistoryBeforeStream s)
    (messageHistory s) (buf s) p.


(** [userMessage] and [assistantMessage] of common/util/messages. *)
Definition userMessage {I O} (content : string) : Message I O := UserMsg content.
Definition assistantMessage {I O} (text : string) : Message I O :=
  AssistantMsg [TextPart text].
(** [assistantMessage({ ...toolCall, type: 'tool-call' })] *)
Definition toolCallMessage {I O} (tc : ToolCall I) : Message I O :=
  AssistantMsg [ToolCallPart (tc_id tc) (tc_name tc) (tc_input tc)].

(** Modelled from the spec: [withSystemTags] of util/messages (not among the
    sources). Section 7 only says the appended user message carries the
    error sentence; the model wraps the sentence whole in system tags. *)
Definition withSystemTags (text : string) : string :=
  ("<system>" ++ text ++ "</system>")%string.

Definition errorText (message : string) : string :=
  ("Error during tool call: " ++ message
   ++ ". Please check the tool name and arguments and try again.")%string.

(** [buildArray] drops falsy entries and flattens nested arrays; the list
    built by processStream holds message objects only, so it is kept whole. *)
Definition buildArray {A} (l : list A) : list A := l.

Section Dispatcher.
Context {Input Output : Type}.
(** [toolNames]: the native tools. *)
Variable toolNames : list string.
(** [agentTemplate.spawnableAgents]. *)
Variable spawnableAgents : list string.
(** Modelled from the spec: the validation done by [executeToolCall] and
    [executeCustomToolCall] (tool-executor, not among the sources), section
    4.4 steps 2-3: [Some message] for an unknown tool or an input that fails
    the tool's schema. *)
Variable validateToolCall : string -> Input -> option string.
Variable validateCustomToolCall : string -> Input -> option string.
(** Modelled from the spec: the input [tryTransformAgentToolCall] builds for
    [spawn_agents] from a call named after a spawnable agent (section 4.4
    step 2). *)
Variable spawnAgentsInput : string -> Input -> Input.
(** The tool handlers (section 4.2): the output of a call. *)
Variable handler : string -> Input -> Output.

Local Abbreviation State := (State Input Output).
Local Abbreviation Buffers := (Buffers Input Output).
Local Abbreviation Spine := (Spine Input).

Definition emit (b : Buffers) (c : Chunk Input Output) : Buffers :=
  Build_Buffers (toolCalls b) (toolCallsToAddToMessageHistory b) (toolResults b)
    (toolResultsToAddToMessageHistory b) (assistantMessages b) (errorMessages b)
    (hadToolCallError b) (fullResponseChunks b) (emitted b ++ [c]).

Definition pushError (b : Buffers) (message : string) : Buffers :=
  Build_Buffers (toolCalls b) (toolCallsToAddToMessageHistory b) (toolResults b)
    (toolResultsToAddToMessageHistory b) (assistantMessages b)
    (errorMessages b ++ [userMessage (withSystemTags (errorText message))])
    true (fullResponseChunks b) (emitted b).

Definition pushAssistant (b : Buffers) (text : string) : Buffers :=
  Build_Buffers (toolCalls b) (toolCallsToAddToMessageHistory b) (toolResults b)
    (toolResultsToAddToMessageHistory b) (assistantMessages b ++ [assistantMessage text])
    (errorMessages b) (hadToolCallError b) (fullResponseChunks b) (emitted b).

Definition pushFullResponse (b : Buffers) (text : string) : Buffers :=
  Build_Buffers (toolCalls b) (toolCallsToAddToMessageHistory b) (toolResults b)
    (toolResultsToAddToMessageHistory b) (assistantMessages b) (errorMessages b)
    (hadToolCallError b) (fullResponseChunks b ++ [text]) (emitted b).

(** [createResponseHandler()]: errors are collected, every chunk forwarded. *)
Definition responseHandler (b : Buffers) (c : Chunk Input Output) : Buffers :=
  match c with
  | ChunkError message => emit (pushError b message) c
  | _ => emit b c
  end.

(** The [onResponseChunk] option given to [processStreamWithTools]. *)
Definition parserCallback (b : Buffers) (a : ParserAction Input) : Buffers :=
  match a with
  | PCallbackText text =>
      emit (if String.eqb text "" then b else pushAssistant b text) (ChunkText text)
  | PCallbackError message => emit b (ChunkError message)
  | _ => b
  end.

(** The body of the stream consumption loop for a yielded chunk. *)
Definition loopBody (b : Buffers) (chunk : StreamChunk Input) : Buffers :=
  match chunk with
  | YReasoning text => emit b (ChunkReasoning text)
  | YText text => pushFullResponse (emit b (ChunkString text)) text
  | YError message => pushError (emit b (ChunkError message)) message
  | YToolCall _ _ => b
  end.

(** Modelled from the spec: [tryTransformAgentToolCall] (tool-executor, not
    among the sources), section 4.4 step 2: a call named after an agent of
    [spawnableAgents] becomes a [spawn_agents] call. *)
Definition tryTransformAgentToolCall (toolName : string) (input : Input)
  : option (string * Input) :=
  if existsb (String.eqb toolName) spawnableAgents
  then Some ("spawn_agents"%string, spawnAgentsInput toolName input)
  else None.

(** Modelled from the spec: [executeToolCall] / [executeCustomToolCall]
    (tool-executor, not among the sources), section 4.4 steps 2-4. A call
    that fails validation emits an [error] chunk through [onResponseChunk],
    records nothing and leaves the spine as it was (it returns the promise
    it was given); a valid call starts an execution that first awaits
    [previousToolCallFinished] and returns its promise. [isXml] is recorded
    with the execution for the statements only. *)
Definition runExecutor (validate : string -> Input -> option string)
    (toolName : string) (input : Input) (isXml : bool) (previous : Promise)
    (toolCallId : nat) (s : State) : State * Promise :=
  match validate toolName input with
  | Some message => (set_buf s (responseHandler (buf s) (ChunkError message)), previous)
  | None =>
      let p := spine s in
      let k := length (tasks p) in
      (set_spine s (Build_Spine (streamDoneResolved p) (previousToolCallFinished p)
         (nextId p) (tasks p ++ [Build_Task toolCallId toolName input isXml previous])
         (finished p)),
       PTool k)
  end.

Definition executeToolCall := runExecutor validateToolCall.
Definition executeCustomToolCall := runExecutor validateCustomToolCall.

Definition takeId (p : Spine) : Spine :=
  Build_Spine (streamDoneResolved p) (previousToolCallFinished p) (S (nextId p))
    (tasks p) (finished p).

Definition setPrevious (p : Spine) (q : Promise) : Spine :=
  Build_Spine (streamDoneResolved p) q (nextId p) (tasks p) (finished p).

(** [createToolExecutionCallback(toolName, isXmlMode).onTagEnd]: the state
    after the synchronous part, and the tool promise ([None] when it returned
    at the abort check). *)
Definition onTagEnd (toolName : string) (input : Input) (isXmlMode : bool)
    (s : State) : State * option Promise :=
  if aborted s then (s, None)
  else
    let toolCallId := nextId (spine s) in
    let s := set_spine s (takeId (spine s)) in
    let isNativeTool := existsb (String.eqb toolName) toolNames in
    let transformed :=
      if isNativeTool then None else tryTransformAgentToolCall toolName input in
    let previousPromise :=
      if isXmlMode && promise_eqb (previousToolCallFinished (spine s)) PStreamDone
      then PResolved else previousToolCallFinished (spine s) in
    let '(s, toolPromise) :=
      if isNativeTool then
        executeToolCall toolName input isXmlMode previousPromise toolCallId s
      else
        match transformed with
        | Some (name, input') =>
            executeToolCall name input' isXmlMode previousPromise toolCallId s
        | None =>
            executeCustomToolCall toolName input isXmlMode previousPromise toolCallId s
        end in
    (set_spine s (setPrevious (spine s) toolPromise), Some toolPromise).

Definition resolved (s : State) (p : Promise) : bool :=
  match p with
  | PResolved => true
  | PStreamDone => streamDoneResolved (spine s)
  | PTool k => existsb (Nat.eqb k) (finished (spine s))
  end.

(** FINALIZATION: the history rebuilt from the pre-stream snapshot. *)
Definition finalize (s : State) : State :=
  let b := buf s in
  set_pc (set_history s (buildArray (messageHistoryBeforeStream s
      ++ assistantMessages b
      ++ map toolCallMessage (toolCallsToAddToMessageHistory b)
      ++ toolResultsToAddToMessageHistory b
      ++ errorMessages b))) Done.

Definition resolveStreamDonePromise (s : State) : State :=
  let p := spine s in
  set_spine s (Build_Spine true (previousToolCallFinished p) (nextId p) (tasks p)
    (finished p)).

(** One move of the step's own code: the loop, the parser run it drives,
    the inline-call await and the final await. *)
Definition mainStep (s : State) : option State :=
  match pc s with
  | LoopTop => if aborted s then Some (finalize s) else Some (set_pc s InNext)
  | InNext =>
      match script s with
      | [] =>
          if aborted s then Some (finalize s)
          else
            let s := resolveStreamDonePromise s in
            Some (set_pc s (AwaitFinal (previousToolCallFinished (spine s))))
      | a :: rest =>
          let s := set_script s rest in
          match a with
          | PCallbackText _ | PCallbackError _ => Some (set_buf s (parserCallback (buf s) a))
          | PYield chunk => Some (set_pc (set_buf s (loopBody (buf s) chunk)) LoopTop)
          | PStructured toolName input => Some (fst (onTagEnd toolName input false s))
          | PXml toolName input =>
              (* executeXmlToolCall *)
              if aborted s then Some s
              else
                match onTagEnd toolName input true s with
                | (s', Some toolPromise) => Some (set_pc s' (AwaitXml toolPromise))
                | (s', None) => Some s'
                end
          end
      end
  | AwaitXml p => if resolved s p then Some (set_pc s InNext) else None
  | AwaitFinal p => if resolved s p then Some (finalize s) else None
  | Done => None
  end.

(** A started execution whose awaited promise resolved runs the handler,
    records the call and its result, and emits [tool_call] then
    [tool_result]. *)
Definition recordToolCall (b : Buffers) (t : Task Input) : Buffers :=
  let tc := Build_ToolCall (task_id t) (task_name t) (task_input t) in
  let output := handler (task_name t) (task_input t) in
  let result : Message Input Output := ToolMsg (task_id t) (task_name t) output in
  let b := Build_Buffers (toolCalls b ++ [tc])
             (toolCallsToAddToMessageHistory b ++ [tc])
             (toolResults b ++ [result])
             (toolResultsToAddToMessageHistory b ++ [result])
             (assistantMessages b) (errorMessages b) (hadToolCallError b)
             (fullResponseChunks b) (emitted b) in
  responseHandler (responseHandler b (ChunkToolCall (task_id t) (task_name t) (task_input t)))
    (ChunkToolResult (task_id t) output).

Definition fire (k : nat) (s : State) : option State :=
  match nth_error (tasks (spine s)) k with
  | None => None
  | Some t =>
      if existsb (Nat.eqb k) (finished (spine s)) then None
      else if resolved s (task_prev t) then
        let p := spine s in
        Some (set_spine (set_buf s (recordToolCall (buf s) t))
                (Build_Spine (streamDoneResolved p) (previousToolCallFinished p)
                   (nextId p) (tasks p) (finished p ++ [k])))
      else None
  end.

Inductive Choice :=
| Main                (** the step's own code moves *)
| Fire (k : nat)      (** the [k]-th execution settles *)
| Abort.              (** the abort signal fires *)

Definition step (c : Choice) (s : State) : option State :=
  match c with
  | Main => mainStep s
  | Fire k => fire k s
  | Abort => if aborted s then None else Some (set_aborted s)
  end.

Fixpoint run (cs : list Choice) (s : State) : option State :=
  match cs with
  | [] => Some s
  | c :: cs' => match step c s with Some s' => run cs' s' | None => None end
  end.

Definition emptyBuffers : Buffers :=
  Build_Buffers [] [] [] [] [] [] false [] [].

(** The start of processStream: [fullResponse] is empty, the history is the
    agent's, [previousToolCallFinished] is [streamDonePromise]. *)
Definition init (history : list (Message Input Output))
    (actions : list (ParserAction Input)) (firstId : nat) : State :=
  Build_State false actions LoopTop history history emptyBuffers
    (Build_Spine false PStreamDone firstId [] []).

(** The validation that decides a call: the executor processStream picks
    (native or transformed: executeToolCall; otherwise executeCustomToolCall). *)
Definition callValidation (toolName : string) (input : Input) : option string :=
  if existsb (String.eqb toolName) toolNames then validateToolCall toolName input
  else match tryTransformAgentToolCall toolName input with
       | Some (name, input') => validateToolCall name input'
       | None => validateCustomToolCall toolName input
       end.

Definition isCallback (a : ParserAction Input) : bool :=
  match a with PCallbackText _ | PCallbackError _ => true | _ => false end.

Definition fireState (s : State) (k : nat) (t : Task Input) : State :=
  let p := spine s in
  set_spine (set_buf s (recordToolCall (buf s) t))
    (Build_Spine (streamDoneResolved p) (previousToolCallFinished p)
       (nextId p) (tasks p) (finished p ++ [k])).

(** [step] as a relation, one constructor per case of the code. *)
Inductive Step : State -> State -> Prop :=
| StAbort s : aborted s = false -> Step s (set_aborted s)
| StFire s k t :
    nth_error (tasks (spine s)) k = Some t ->
    existsb (Nat.eqb k) (finished (spine s)) = false ->
    resolved s (task_prev t) = true ->
    Step s (fireState s k t)
| StLoopExit s : pc s = LoopTop -> aborted s = true -> Step s (finalize s)
| StLoopNext s : pc s = LoopTop -> aborted s = false -> Step s (set_pc s InNext)
| StEndAborted s : pc s = InNext -> script s = [] -> aborted s = true -> Step s (finalize s)
| StEnd s : pc s = InNext -> script s = [] -> aborted s = false ->
    Step s (set_pc (resolveStreamDonePromise s) (AwaitFinal (previousToolCallFinished (spine s))))
| StCallback s a rest : pc s = InNext -> script s = a :: rest -> isCallback a = true ->
    Step s (set_buf (set_script s rest) (parserCallback (buf s) a))
| StYield s c rest : pc s = InNext -> script s = PYield c :: rest ->
    Step s (set_pc (set_buf (set_script s rest) (loopBody (buf s) c)) LoopTop)
| StStructured s n i rest : pc s = InNext -> script s = PStructured n i :: rest ->
    Step s (fst (onTagEnd n i false (set_script s rest)))
| StXmlAborted s n i rest : pc s = InNext -> script s = PXml n i :: rest ->
    aborted s = true -> Step s (set_script s rest)
| StXml s n i rest s' p : pc s = InNext -> script s = PXml n i :: rest ->
    aborted s = false -> onTagEnd n i true (set_script s rest) = (s', Some p) ->
    Step s (set_pc s' (AwaitXml p))
| StAwaitXml s p : pc s = AwaitXml p -> resolved s p = true -> Step s (set_pc s InNext)
| StAwaitFinal s p : pc s = AwaitFinal p -> resolved s p = true -> Step s (finalize s).

Inductive reach (h : list (Message Input Output)) (actions : list (ParserAction Input))
    (firstId : nat) : State -> Prop :=
| reach_init : reach h actions firstId (init h actions firstId)
| reach_step s s' : reach h actions firstId s -> Step s s' -> reach h actions firstId s'.

(** Bookkeeping views of a started execution. *)
Definition taskCall (t : Task Input) : ToolCall Input :=
  Build_ToolCall (task_id t) (task_name t) (task_input t).
Definition taskResult (t : Task Input) : Message Input Output :=
  ToolMsg (task_id t) (task_name t) (handler (task_name t) (task_input t)).
Definition taskChunks (t : Task Input) : list (Chunk Input Output) :=
  [ChunkToolCall (task_id t) (task_name t) (task_input t);
   ChunkToolResult (task_id t) (handler (task_name t) (task_input t))].

End Dispatcher.

Definition isToolChunk {I O} (c : Chunk I O) : bool :=
  match c with ChunkToolCall _ _ _ | ChunkToolResult _ _ => true | _ => false end.

(** The tool-call id an [onResponseChunk] event carries, if any. *)
Definition chunkToolId {I O} (c : Chunk I O) : option nat :=
  match c with
  | ChunkToolCall id _ _ | ChunkToolResult id _ => Some id
  | _ => None
  end.

(** Observations of a consumed part of the parser run, in stream order:
    the texts of the yielded text chunks, the non-empty texts the parser
    passed to [onResponseChunk], the text-like chunks forwarded to the UI,
    and the errors the parser passed to [onResponseChunk]. *)
Definition yieldTexts {I} (pre : list (ParserAction I)) : list string :=
  flat_map (fun a => match a with PYield (YText t) => [t] | _ => [] end) pre.

Definition callbackTexts {I} (pre : list (ParserAction I)) : list string :=
  flat_map (fun a => match a with
                     | PCallbackText t => if String.eqb t "" then [] else [t]
                     | _ => []
                     end) pre.

Definition textChunks {I O} (pre : list (ParserAction I)) : list (Chunk I O) :=
  flat_map (fun a => match a with
                     | PCallbackText t => [ChunkText t]
                     | PYield (YText t) => [ChunkString t]
                     | PYield (YReasoning t) => [ChunkReasoning t]
                     | _ => []
                     end) pre.

Definition callbackErrors {I} (pre : list (ParserAction I)) : nat :=
  length (flat_map (fun a => match a with PCallbackError m => [m] | _ => [] end) pre).

Definition isTextChunk {I O} (c : Chunk I O) : bool :=
  match c with ChunkString _ | ChunkText _ | ChunkReasoning _ => true | _ => false end.

Definition isErrorChunk {I O} (c : Chunk I O) : bool :=
  match c with ChunkError _ => true | _ => false end.

(** [fullResponseChunks.join('')], the [fullResponse] processStream returns. *)
Definition fullResponse {I O} (b : Buffers I O) : string :=
  String.concat "" (fullResponseChunks b).

(** The tool-call ids of a message's tool-call parts. *)
Definition toolCallIds {I O} (m : Message I O) : list nat :=
  match m with
  | AssistantMsg parts =>
      flat_map (fun p => match p with ToolCallPart id _ _ => [id] | _ => [] end) parts
  | _ => []
  end.

Definition isToolMsg {I O} (m : Message I O) : bool :=
  match m with ToolMsg _ _ _ => true | _ => false end.

(** I-NO-ORPHAN, with the order of I-PAIR: every tool message has its id on a
    tool-call part of an earlier message. *)
Definition pairedBefore {I O} (log : list (Message I O)) : Prop :=
  forall i id name out, nth_error log i = Some (ToolMsg id name out) ->
  exists j m, j < i /\ nth_error log j = Some m /\ In id (toolCallIds m).

(** The "exactly one" of I-PAIR: the id of a tool message is on exactly one
    tool-call part of the log. *)
Definition pairedOnce {I O} (log : list (Message I O)) : Prop :=
  forall i id name out, nth_error log i = Some (ToolMsg id name out) ->
  count_occ Nat.eq_dec (flat_map toolCallIds log) id = 1.

(** I-ADJACENT: a tool message follows the assistant message of its call with
    only tool messages in between. *)
Definition adjacent {I O} (log : list (Message I O)) : Prop :=
  forall i id name out, nth_error log i = Some (ToolMsg id name out) ->
  exists j m, j < i /\ nth_error log j = Some m /\ In id (toolCallIds m) /\
    forall l ml, j < l < i -> nth_error log l = Some ml -> isToolMsg ml = true.

End Stream.

(** ** packages/agent-runtime/src/tools/handlers/tool/read-docs.ts *)
Module ReadDocs.
Import JS.
Local Open Scope string_scope.

(** A value thrown in JavaScript: an [Error] instance (with its message) or
    any other value. *)
Inductive thrown :=
| ThrownError (message : string)
| ThrownValue (v : jsval).

(** How an awaited promise settles. *)
Inductive settled (A : Type) :=
| Fulfilled (a : A)
| Rejected (t : thrown).
Arguments Fulfilled {A} a.
Arguments Rejected {A} t.

(** What [await callDocsSearchAPI(...)] does: resolve to the response object
    (its own properties) or throw. *)
Inductive apiOutcome :=
| ApiReturned (viaWebApi : list (string * jsval))
| ApiThrew (t : thrown).

(** The logger: whether each of its methods throws when called. *)
Record Logger := {
  warnThrows : option thrown;
  infoThrows : option thrown;
  errorThrows : option thrown
}.

(** The one-character string made of a double quote. *)
Definition dquote : string := String (Ascii.Ascii false true false false false true false false) EmptyString.

Fixpoint uint_to_string (u : Decimal.uint) : string :=
  match u with
  | Decimal.Nil => ""
  | Decimal.D0 u => String "0" (uint_to_string u)
  | Decimal.D1 u => String "1" (uint_to_string u)
  | Decimal.D2 u => String "2" (uint_to_string u)
  | Decimal.D3 u => String "3" (uint_to_string u)
  | Decimal.D4 u => String "4" (uint_to_string u)
  | Decimal.D5 u => String "5" (uint_to_string u)
  | Decimal.D6 u => String "6" (uint_to_string u)
  | Decimal.D7 u => String "7" (uint_to_string u)
  | Decimal.D8 u => String "8" (uint_to_string u)
  | Decimal.D9 u => String "9" (uint_to_string u)
  end.

(** The decimal text of an integer, as [String(n)] prints it. *)
Definition Z_to_string (n : Z) : string :=
  match Z.to_int n with
  | Decimal.Pos u => uint_to_string u
  | Decimal.Neg u => "-" ++ uint_to_string u
  end.

(** [typeof v === 'string'] *)
Definition is_string (v : jsval) : bool :=
  match v with JStr _ => true | _ => false end.

Section Handler.

(** [String(v)] on an object or a function runs its [toString], which this
    embedding does not model: it is a parameter. *)
Variable objectToString : jsval -> string.

(** [String(v)], the conversion of a template literal's [${v}]. *)
Definition js_String (v : jsval) : string :=
  match v with
  | JUndefined => "undefined"
  | JNull => "null"
  | JBool true => "true"
  | JBool false => "false"
  | JNum n => Z_to_string n
  | JStr s => s
  | JObj _ | JFun _ => objectToString v
  end.

(** [`Error fetching documentation for "${libraryTitle}"`] *)
Definition errorPrefix (libraryTitle : string) : string :=
  "Error fetching documentation for " ++ dquote ++ libraryTitle ++ dquote.

(** [docMsg] of the error branch. *)
Definition docMsg (libraryTitle : string) (topic error : jsval) : string :=
  errorPrefix libraryTitle ++
  (if truthy topic then " (topic: " ++ js_String topic ++ ")" else "") ++
  ": " ++ js_String error.

(** [errMsg] of the catch branch. *)
Definition errMsg (libraryTitle : string) (t : thrown) : string :=
  errorPrefix libraryTitle ++ ": " ++
  match t with ThrownError m => m | ThrownValue _ => "Unknown error" end.

(** The catch block: the value it returns, unless [logger.error] throws,
    in which case the async function rejects. *)
Definition catchBlock (logger : Logger) (libraryTitle : string) (t : thrown)
    : settled jsval :=
  match errorThrows logger with
  | Some t' => Rejected t'
  | None =>
      let m := errMsg libraryTitle t in
      Fulfilled (JObj [("documentation", JStr m); ("errorMessage", JStr m)])
  end.

(** [documentationPromise]: how it settles, and the value of
    [capturedCreditsUsed] when it has settled. *)
Definition documentationPromise (logger : Logger) (libraryTitle : string)
    (topic : jsval) (api : apiOutcome) : settled jsval * Z :=
  match api with
  | ApiThrew t => (catchBlock logger libraryTitle t, 0%Z)
  | ApiReturned props =>
      let viaWebApi := JObj props in
      let error := get viaWebApi "error" in
      let documentation := get viaWebApi "documentation" in
      if truthy error || negb (is_string documentation) then
        match warnThrows logger with
        | Some t => (catchBlock logger libraryTitle t, 0%Z)
        | None =>
            (Fulfilled (JObj [("documentation", JStr (docMsg libraryTitle topic error));
                              ("errorMessage", error)]), 0%Z)
        end
      else
        let captured :=
          match get viaWebApi "creditsUsed" with JNum n => n | _ => 0%Z end in
        match infoThrows logger with
        | Some t => (catchBlock logger libraryTitle t, captured)
        | None => (Fulfilled (JObj [("documentation", documentation)]), captured)
        end
  end.

(** [handleReadDocs]: how its [result] promise and its [state.creditsUsed]
    promise settle, given how [previousToolCallFinished] settles. *)
Definition handleReadDocs (previousToolCallFinished : settled unit)
    (logger : Logger) (libraryTitle : string) (topic : jsval) (api : apiOutcome)
    : settled (list jsval) * settled Z :=
  let '(doc, captured) := documentationPromise logger libraryTitle topic api in
  let result :=
    match previousToolCallFinished with
    | Rejected t => Rejected t
    | Fulfilled _ =>
        match doc with
        | Rejected t => Rejected t
        | Fulfilled value => Fulfilled [JObj [("type", JStr "json"); ("value", value)]]
        end
    end in
  let creditsUsed :=
    match doc with
    | Rejected t => Rejected t
    | Fulfilled _ => Fulfilled captured
    end in
  (result, creditsUsed).

End Handler.

End ReadDocs.

(** A concrete instance of the step: three native tools, one spawnable
    agent, string inputs and outputs. A native call with an empty input fails
    validation; every other name is unknown to the custom-tool executor. *)
Module StreamDemo.
Import Stream.
Local Open Scope string_scope.

Definition demoToolNames : list string := ["read_files"; "spawn_agents"; "end_turn"].
Definition demoSpawnable : list string := ["file-picker"].
Definition demoValidate (name input : string) : option string :=
  if String.eqb input "" then Some ("Invalid parameters for " ++ name)%string else None.
Definition demoValidateCustom (name input : string) : option string :=
  Some (name ++ " is not a valid tool")%string.
Definition demoSpawnInput (agent input : string) : string := (agent ++ ":" ++ input)%string.
Definition demoHandler (name input : string) : string := (name ++ "(" ++ input ++ ")")%string.

Abbreviation demoRun := (@run string string demoToolNames demoSpawnable demoValidate
  demoValidateCustom demoSpawnInput demoHandler).
Abbreviation demoMainStep := (@mainStep string string demoToolNames demoSpawnable
  demoValidate demoValidateCustom demoSpawnInput).
Abbreviation demoInit actions := (@init string string [] actions 100).

Definition getState (o : option (State string string)) : State string string :=
  match o with Some s => s | None => demoInit [] end.

(** Two structured calls, both executed after the end of the stream. *)
Definition twoCalls : list (ParserAction string) :=
  [PCallbackText "ok"; PStructured "read_files" "a.ts"; PStructured "read_files" "b.ts"].
Definition twoCallsChoices : list Choice := [Main; Main; Main; Main; Main; Fire 0; Fire 1].
Definition twoCallsSettled : State string string :=
  Eval vm_compute in getState (demoRun twoCallsChoices (demoInit twoCalls)).
Definition twoCallsDone : State string string :=
  Eval vm_compute in getState (demoMainStep twoCallsSettled).

(** An invalid structured call ([read_files] with an empty input) followed
    by a valid one. *)
Definition badCall : list (ParserAction string) :=
  [PStructured "read_files" ""; PStructured "read_files" "b.ts"].
Definition badCallAt : State string string :=
  Eval vm_compute in getState (demoRun [Main] (demoInit badCall)).

(** An inline call followed by streamed text; the step is aborted while the
    call's handler is in flight. *)
Definition abortLate : list (ParserAction string) :=
  [PXml "read_files" "a.ts"; PYield (YText "after")].
Definition abortLateBefore : State string string :=
  Eval vm_compute in getState (demoRun [Main; Main] (demoInit abortLate)).
Definition abortLateDone : State string string :=
  Eval vm_compute in getState (demoRun [Abort; Fire 0; Main; Main; Main] abortLateBefore).

(** A structured call parsed after the abort signal fired. *)
Definition abortEarly : State string string :=
  Eval vm_compute in
    getState (demoRun [Main; Abort] (demoInit [PStructured "read_files" "a.ts"])).

(** The parser about to hand the inline call of [abortLate] over. *)
Definition xmlAt : State string string :=
  Eval vm_compute in getState (demoRun [Main] (demoInit abortLate)).

(** A run of text, reasoning and errors, started, as processStream starts,
    with a non-empty [fullResponse]. *)
Definition textRun : list (ParserAction string) :=
  [PCallbackText "Hi"; PCallbackText ""; PYield (YText "Hel"); PYield (YReasoning "hmm");
   PYield (YText "lo"); PCallbackError "unclosed tag"; PYield (YError "bad chunk")].
Definition textStart : State string string :=
  Build_State false textRun LoopTop [] [] (Build_Buffers [] [] [] [] [] [] false ["So: "] [])
    (Build_Spine false PStreamDone 100 [] []).
Definition textEnd : State string string :=
  Eval vm_compute in getState (demoRun (repeat Main 12) textStart).

(** An inline call, then a structured call that is still running when the
    step, aborted, returns; it settles afterwards. *)
Definition lateRun : list (ParserAction string) :=
  [PXml "read_files" "a.ts"; PStructured "read_files" "b.ts"].
Definition lateDone : State string string :=
  Eval vm_compute in
    getState (demoRun [Main; Main; Fire 0; Main; Main; Abort; Main] (demoInit lateRun)).

End StreamDemo.

(** * Properties *)

(** ** Retry classification and the serializable-transaction wrapper *)
Module TransactionFacts.
Import JS Transaction.

Definition retryable_class_keys : list string := ["40"; "08"; "57"; "53"]%string.

Example listed_code : getRetryableErrorDescription (JObj [("code", JStr "40P01")]%string)
  = Some (DescStr "deadlock_detected"). Proof. reflexivity. Qed.
Example class_fallback : getRetryableErrorDescription (JObj [("code", JStr "57999")]%string)
  = Some (DescStr "operator_intervention_57999"). Proof. reflexivity. Qed.
Example other_class : getRetryableErrorDescription (JObj [("code", JStr "23503")]%string)
  = None. Proof. reflexivity. Qed.
Example numeric_code : getRetryableErrorDescription (JObj [("code", JNum 40001)]%string)
  = None. Proof. reflexivity. Qed.

Lemma substring_0_2_short (c : string) :
  String.length (substring 0 2 c) <= 2.
Proof. destruct c as [|a [|b [|d c]]]; simpl; lia. Qed.

Lemma prototype_member_long (k : string) :
  is_prototype_member k = true -> 2 < String.length k.
Proof.
  unfold is_prototype_member. intros H.
  apply existsb_exists in H as [m [Hin Heq]].
  apply String.eqb_eq in Heq; subst m.
  simpl in Hin.
  repeat (destruct Hin as [<-|Hin]; [simpl; lia|]).
  contradiction.
Qed.

Lemma assoc_some_key {B} (l : list (string * B)) (k : string) (v : B) :
  assoc l k = Some v -> In k (map fst l).
Proof.
  induction l as [|[k' v'] l IH]; simpl; [discriminate|].
  destruct (String.eqb k k') eqn:E.
  - apply String.eqb_eq in E. auto.
  - auto.
Qed.

Lemma listed_codes_in_classes (c v : string) :
  assoc RETRYABLE_PG_ERROR_CODES c = Some v ->
  In (substring 0 2 c) retryable_class_keys.
Proof.
  intros H. apply assoc_some_key in H. simpl in H.
  repeat (destruct H as [<-|H]; [simpl; tauto|]).
  contradiction.
Qed.

Lemma record_in_classes (cl : string) :
  String.length cl <= 2 ->
  record_in retryableClasses cl <> None <-> In cl retryable_class_keys.
Proof.
  intros Hlen. unfold record_in, retryableClasses; simpl.
  destruct (String.eqb cl "08") eqn:E1;
    [apply String.eqb_eq in E1; subst; simpl; intuition discriminate|].
  destruct (String.eqb cl "40") eqn:E2;
    [apply String.eqb_eq in E2; subst; simpl; intuition discriminate|].
  destruct (String.eqb cl "53") eqn:E3;
    [apply String.eqb_eq in E3; subst; simpl; intuition discriminate|].
  destruct (String.eqb cl "57") eqn:E4;
    [apply String.eqb_eq in E4; subst; simpl; intuition discriminate|].
  apply String.eqb_neq in E1, E2, E3, E4.
  destruct (is_prototype_member cl) eqn:Hp.
  - apply prototype_member_long in Hp; lia.
  - simpl. split; [congruence|].
    intros [H|[H|[H|[H|[]]]]]; subst; congruence.
Qed.

(** The answer for a string code: non-null exactly for the four classes and
    for the names of [Object.prototype] members. *)
Lemma code_description_some (c : string) :
  record_in RETRYABLE_PG_ERROR_CODES c <> None
  \/ record_in retryableClasses (substring 0 2 c) <> None
  <-> In (substring 0 2 c) retryable_class_keys \/ is_prototype_member c = true.
Proof.
  pose proof (record_in_classes (substring 0 2 c) (substring_0_2_short c)) as Hc.
  unfold record_in at 1.
  destruct (assoc RETRYABLE_PG_ERROR_CODES c) eqn:Ha.
  - apply listed_codes_in_classes in Ha. split; [tauto|intros _; left; discriminate].
  - destruct (is_prototype_member c).
    + split; [intros _; right; reflexivity|intros _; left; discriminate].
    + split.
      * intros [H|H]; [congruence|left; apply Hc; exact H].
      * intros [H|H]; [right; apply Hc; exact H|discriminate].
Qed.

Lemma getRetryableErrorDescription_obj (props : list (string * jsval)) :
  getRetryableErrorDescription (JObj props) =
  match get (JObj props) "code" with
  | JStr errorCode =>
      match record_in RETRYABLE_PG_ERROR_CODES errorCode with
      | Some d => Some d
      | None =>
          match record_in retryableClasses (substring 0 2 errorCode) with
          | Some c => Some (DescStr (desc_to_string c ++ "_" ++ errorCode))
          | None => None
          end
      end
  | _ => None
  end.
Proof. reflexivity. Qed.

(** ** withSerializableTransaction: attempts and results *)
Section Retry.
Variable A : Type.
Variable responses : nat -> outcome A.

Definition retried (o : outcome A) : Prop :=
  match o with Ok _ => False | Err e => isRetryablePostgresError e = true end.

Definition final (o : outcome A) : Prop :=
  match o with Ok _ => True | Err e => isRetryablePostgresError e = false end.

Lemma withRetry_go_spec (r attempt : nat) (last : jsval)
    (calls0 calls : list isolationLevel) (res : outcome A) :
  length calls0 = attempt -> attempt + r = 5 -> 1 <= r ->
  withRetry_go (fun calls => db_transaction responses Serializable calls)
    (fun error => match getRetryableErrorDescription error with
                  | Some _ => true | None => false end)
    5 attempt r last calls0 = (res, calls) ->
  exists k, calls = calls0 ++ repeat Serializable k /\ 1 <= k <= r /\
    res = responses (attempt + k - 1) /\
    (forall i, attempt <= i < attempt + k - 1 -> retried (responses i)) /\
    (attempt + k < 5 -> final res).
Proof.
  revert attempt last calls0.
  induction r as [|r IH]; intros attempt last calls0 Hlen Hsum Hr Hrun; [lia|].
  simpl in Hrun. unfold db_transaction in Hrun. rewrite Hlen in Hrun.
  destruct (responses attempt) as [v|e] eqn:Hresp.
  - inversion Hrun; subst. exists 1.
    split; [reflexivity|]. split; [lia|]. rewrite Nat.add_sub.
    split; [congruence|]. split; [intros i Hi; lia|].
    intros _. exact I.
  - destruct (getRetryableErrorDescription e) eqn:Hd; simpl in Hrun.
    + destruct (Nat.eqb attempt 4) eqn:E4.
      * apply Nat.eqb_eq in E4. inversion Hrun; subst.
        exists 1. split; [reflexivity|]. split; [lia|]. rewrite Nat.add_sub.
        split; [congruence|]. split; [intros i Hi; lia|]. lia.
      * apply Nat.eqb_neq in E4.
        destruct (IH (S attempt) e (calls0 ++ [Serializable])) as
          [k [Hc [Hk [Hres [Hmid Hfin]]]]]; try lia; auto.
        { rewrite length_app; simpl; lia. }
        exists (S k). split; [rewrite Hc, <- app_assoc; reflexivity|].
        split; [lia|]. split; [rewrite Hres; f_equal; lia|]. split.
        -- intros i Hi. destruct (Nat.eq_dec i attempt) as [->|Hne].
           ++ rewrite Hresp. unfold retried, isRetryablePostgresError. now rewrite Hd.
           ++ apply Hmid; lia.
        -- intros Hlt. apply Hfin. lia.
    + inversion Hrun; subst. exists 1.
      split; [reflexivity|]. split; [lia|]. rewrite Nat.add_sub.
      split; [congruence|]. split; [intros i Hi; lia|].
      intros _. simpl.
      unfold isRetryablePostgresError. now rewrite Hd.
Qed.

End Retry.

(** Away from the names of [Object.prototype] members, the description is
    non-null exactly for the four retryable classes. *)
Lemma getRetryableErrorDescription_some_iff (e : jsval) :
  getRetryableErrorDescription e <> None <->
  exists props c, e = JObj props /\ get e "code" = JStr c /\
    (In (substring 0 2 c) retryable_class_keys \/ is_prototype_member c = true).
Proof.
  destruct e as [| |b|n|s|props|f];
    try (split; [intros H; exfalso; apply H; unfold getRetryableErrorDescription;
                 simpl; rewrite ?orb_true_r; reflexivity
                |intros (p & c & H & _); discriminate]).
  rewrite getRetryableErrorDescription_obj.
  destruct (get (JObj props) "code") as [| |b|n|c|q|f] eqn:Hc;
    try (split; [intros H; exfalso; apply H; reflexivity
                |intros (p & c' & _ & H & _); discriminate]).
  pose proof (code_description_some c) as Hd.
  split.
  - intros H. exists props, c. repeat split; auto.
    apply Hd. destruct (record_in RETRYABLE_PG_ERROR_CODES c); [left; congruence|].
    right. destruct (record_in retryableClasses (substring 0 2 c)); congruence.
  - intros (p & c' & Hp & Hc' & Hin). inversion Hc'; subst c'.
    apply Hd in Hin.
    destruct (record_in RETRYABLE_PG_ERROR_CODES c); [congruence|].
    destruct Hin as [Hin|Hin]; [congruence|].
    destruct (record_in retryableClasses (substring 0 2 c)); congruence.
Qed.

(** C4: withSerializableTransaction calls the database at most 5 times,
    always with serializable isolation. Every attempt but the last failed
    with a retryable error; the result is the last attempt's; fewer than 5
    attempts happen only when the last one succeeded or failed with a
    non-retryable error; a first attempt that succeeds or fails with a
    non-retryable error is the only one. *)
Theorem withSerializableTransaction_attempts (A : Type) (responses : nat -> outcome A) :
  let '(res, calls) := withSerializableTransaction responses in
  1 <= length calls <= 5 /\
  Forall (eq Serializable) calls /\
  res = responses (length calls - 1) /\
  (forall i, i < length calls - 1 -> retried A (responses i)) /\
  (length calls < 5 -> final A res) /\
  (final A (responses 0) -> length calls = 1).
Proof.
  unfold withSerializableTransaction, withRetry.
  destruct (withRetry_go _ _ 5 0 5 JNull []) as [res calls] eqn:Hrun.
  destruct (withRetry_go_spec A responses 5 0 JNull [] calls res)
    as [k [Hc [Hk [Hres [Hmid Hfin]]]]]; auto.
  subst calls. simpl. rewrite repeat_length.
  split; [lia|]. split.
  { apply Forall_forall. intros x Hx. apply repeat_spec in Hx. auto. }
  split; [exact Hres|]. split; [intros i Hi; apply Hmid; lia|].
  split; [exact Hfin|].
  intros H0. destruct (Nat.eq_dec k 1) as [->|Hne]; [reflexivity|].
  exfalso. specialize (Hmid 0 ltac:(lia)).
  destruct (responses 0); simpl in *; congruence.
Qed.

(** C5 (code_bug): an error whose [code] is the name of an
    [Object.prototype] member, e.g. ['toString'], passes the [in] test on
    the record literal: the function returns the inherited member (non-null)
    although the code is in none of the classes 40, 08, 57, 53. *)
Theorem getRetryableErrorDescription_prototype_code :
  getRetryableErrorDescription (JObj [("code", JStr "toString")]%string)
    = Some (DescProtoMember "toString")
  /\ ~ In (substring 0 2 "toString") retryable_class_keys
  /\ isRetryablePostgresError (JObj [("code", JStr "toString")]%string) = true.
Proof.
  split; [reflexivity|]. split; [simpl; intuition discriminate|reflexivity].
Qed.

(** C10 (code_bug): an error whose only retryable code sits in its nested
    [cause], and whose top-level [code] is ['toString'], is not classified
    as null: the [in] test on the record literal sees the member inherited
    from [Object.prototype], so the description is that inherited function
    and the error counts as retryable, although ['to'] is none of the
    classes 40, 08, 57, 53. *)
Theorem nested_cause_prototype_code_not_null :
  getRetryableErrorDescription
    (JObj [("code", JStr "toString"); ("cause", JObj [("code", JStr "40001")])]%string)
    = Some (DescProtoMember "toString")
  /\ ~ In (substring 0 2 "toString") retryable_class_keys
  /\ isRetryablePostgresError
       (JObj [("code", JStr "toString"); ("cause", JObj [("code", JStr "40001")])]%string)
     = true.
Proof.
  split; [reflexivity|]. split; [simpl; intuition discriminate|reflexivity].
Qed.

(** The classification reads only the top-level [code]: when
    that code is absent, not a string, or a string outside the four classes
    that names no [Object.prototype] member, the description is null, the
    error is not retryable and withSerializableTransaction makes a single
    attempt, whatever the nested [cause] chain holds. *)
Theorem retry_decision_ignores_cause (props : list (string * jsval))
  (Hcode : forall c, get (JObj props) "code" = JStr c ->
     ~ In (substring 0 2 c) retryable_class_keys /\ is_prototype_member c = false) :
  getRetryableErrorDescription (JObj props) = None /\
  isRetryablePostgresError (JObj props) = false /\
  (forall (A : Type) (responses : nat -> outcome A),
     responses 0 = Err (JObj props) ->
     withSerializableTransaction responses = (Err (JObj props), [Serializable])).
Proof.
  assert (Hnone : getRetryableErrorDescription (JObj props) = None).
  { destruct (getRetryableErrorDescription (JObj props)) eqn:E; [|reflexivity].
    exfalso. assert (Hs : getRetryableErrorDescription (JObj props) <> None) by congruence.
    apply getRetryableErrorDescription_some_iff in Hs as (p & c & _ & Hc & Hin).
    destruct (Hcode c Hc) as [H1 H2]. destruct Hin; [tauto|congruence]. }
  split; [exact Hnone|]. split; [unfold isRetryablePostgresError; now rewrite Hnone|].
  intros A responses H0.
  unfold withSerializableTransaction, withRetry, db_transaction. simpl.
  rewrite H0, Hnone. reflexivity.
Qed.

Lemma retry_decision_ignores_cause_witness :
  getRetryableErrorDescription
    (JObj [("code", JStr "FETCH_ERROR"); ("cause", JObj [("code", JStr "40001")])]%string)
    = None /\
  isRetryablePostgresError
    (JObj [("code", JStr "FETCH_ERROR"); ("cause", JObj [("code", JStr "40001")])]%string)
    = false /\
  (forall (A : Type) (responses : nat -> outcome A),
     responses 0 = Err (JObj [("code", JStr "FETCH_ERROR");
                              ("cause", JObj [("code", JStr "40001")])]%string) ->
     withSerializableTransaction responses =
       (Err (JObj [("code", JStr "FETCH_ERROR");
                   ("cause", JObj [("code", JStr "40001")])]%string), [Serializable])).
Proof.
  apply retry_decision_ignores_cause.
  intros c Hc. simpl in Hc. inversion Hc; subst c.
  split; [simpl; intuition discriminate|reflexivity].
Defined.

(** Every listed code is described by its own name: an error object whose
    [code] is one of the seventeen listed codes gets exactly the name the
    table gives it. *)
Theorem listed_code_description (props : list (string * jsval)) (c name : string) :
  In (c, name) RETRYABLE_PG_ERROR_CODES ->
  get (JObj props) "code" = JStr c ->
  getRetryableErrorDescription (JObj props) = Some (DescStr name).
Proof.
  intros Hin Hc. rewrite getRetryableErrorDescription_obj, Hc.
  simpl in Hin.
  repeat (destruct Hin as [Hin|Hin]; [inversion Hin; subst; reflexivity|]).
  contradiction.
Qed.

(** Class fallback: a string code that is not listed and names no
    [Object.prototype] member, but whose first two characters are one of the
    retryable classes, is described as [<class name>_<code>]. *)
Theorem class_fallback_description (props : list (string * jsval)) (c cls : string) :
  get (JObj props) "code" = JStr c ->
  assoc RETRYABLE_PG_ERROR_CODES c = None ->
  is_prototype_member c = false ->
  assoc retryableClasses (substring 0 2 c) = Some cls ->
  getRetryableErrorDescription (JObj props) = Some (DescStr (cls ++ "_" ++ c)).
Proof.
  intros Hc Ha Hp Hcl. rewrite getRetryableErrorDescription_obj, Hc.
  unfold record_in. rewrite Ha, Hp, Hcl. reflexivity.
Qed.

(** Only objects are classified: any other thrown value (a string holding a
    code, a number, [null], [undefined], a function) is not retryable. *)
Theorem non_object_not_retryable (e : jsval) :
  (forall props, e <> JObj props) ->
  getRetryableErrorDescription e = None /\ isRetryablePostgresError e = false.
Proof.
  intros H. destruct e as [| |b|n|s|props|f];
    try (exfalso; eapply H; reflexivity);
    unfold isRetryablePostgresError, getRetryableErrorDescription; simpl;
    rewrite ?orb_true_r; split; reflexivity.
Qed.

(** How many attempts withSerializableTransaction makes: after [k]
    retryable failures, attempt [k] is the last one when it succeeds or
    fails with a non-retryable error, or when it is the fifth; the result is
    that attempt's, after [k + 1] serializable calls. *)
Theorem withSerializableTransaction_settles_at (A : Type) (responses : nat -> outcome A)
    (k : nat) :
  k <= 4 ->
  (forall i, i < k -> retried A (responses i)) ->
  final A (responses k) \/ k = 4 ->
  withSerializableTransaction responses = (responses k, repeat Serializable (S k)).
Proof.
  intros Hk Hpre Hlast.
  unfold withSerializableTransaction, withRetry.
  destruct (withRetry_go _ _ 5 0 5 JNull []) as [res calls] eqn:Hrun.
  destruct (withRetry_go_spec A responses 5 0 JNull [] calls res)
    as [k' [Hc [Hk' [Hres [Hmid Hfin]]]]]; auto.
  simpl in Hc, Hres, Hmid, Hfin.
  assert (Hexcl : forall i, retried A (responses i) ->
                            final A (responses i) -> False).
  { intros i. unfold retried, final. destruct (responses i); simpl; intros H1 H2; [exact H1|congruence]. }
  assert (Hge : k' - 1 >= k).
  { destruct (Nat.lt_ge_cases (k' - 1) k) as [Hlt|]; [|lia].
    exfalso. apply (Hexcl (k' - 1)); [apply Hpre; exact Hlt|].
    assert (Hr : res = responses (k' - 1)) by (rewrite Hres; f_equal; lia).
    rewrite <- Hr. apply Hfin. lia. }
  assert (Hle : k' - 1 <= k).
  { destruct Hlast as [Hf| ->]; [|lia].
    destruct (Nat.lt_ge_cases k (k' - 1)) as [Hlt|]; [|lia].
    exfalso. apply (Hexcl k); [apply Hmid; lia|exact Hf]. }
  replace k' with (S k) in * by lia.
  rewrite Hres, Hc. f_equal. f_equal. lia.
Qed.

(** A concrete error object whose [code] is one of the listed codes. *)
Definition deadlockError : jsval := JObj [("code", JStr "40P01")]%string.
(** Two deadlocks, then success. *)
Definition twoDeadlocksThenOk (i : nat) : outcome nat :=
  if Nat.ltb i 2 then Err deadlockError else Ok 42.

Lemma listed_code_description_witness :
  In ("40P01", "deadlock_detected")%string RETRYABLE_PG_ERROR_CODES /\
  get deadlockError "code" = JStr "40P01" /\
  getRetryableErrorDescription deadlockError = Some (DescStr "deadlock_detected").
Proof.
  split; [simpl; tauto|]. split; [reflexivity|].
  exact (listed_code_description [("code", JStr "40P01")]%string "40P01" "deadlock_detected"
           ltac:(simpl; tauto) eq_refl).
Defined.

Lemma class_fallback_description_witness :
  assoc RETRYABLE_PG_ERROR_CODES "08P02" = None /\
  is_prototype_member "08P02" = false /\
  assoc retryableClasses (substring 0 2 "08P02") = Some "connection_exception"%string /\
  getRetryableErrorDescription (JObj [("code", JStr "08P02")]%string) =
    Some (DescStr "connection_exception_08P02").
Proof.
  split; [reflexivity|]. split; [reflexivity|]. split; [reflexivity|].
  exact (class_fallback_description [("code", JStr "08P02")]%string "08P02"
           "connection_exception" eq_refl eq_refl eq_refl eq_refl).
Defined.

Lemma non_object_not_retryable_witness :
  (forall props, JStr "40001" <> JObj props) /\
  getRetryableErrorDescription (JStr "40001") = None /\
  isRetryablePostgresError (JStr "40001") = false.
Proof.
  assert (H : forall props, JStr "40001" <> JObj props) by discriminate.
  split; [exact H|]. exact (non_object_not_retryable (JStr "40001") H).
Defined.

Lemma withSerializableTransaction_settles_at_witness :
  (forall i, i < 2 -> retried nat (twoDeadlocksThenOk i)) /\
  final nat (twoDeadlocksThenOk 2) /\
  withSerializableTransaction twoDeadlocksThenOk =
    (Ok 42, [Serializable; Serializable; Serializable]).
Proof.
  assert (Hpre : forall i, i < 2 -> retried nat (twoDeadlocksThenOk i)).
  { intros i Hi. destruct i as [|[|i]]; [reflexivity|reflexivity|lia]. }
  assert (Hf : final nat (twoDeadlocksThenOk 2)) by exact I.
  split; [exact Hpre|]. split; [exact Hf|].
  exact (withSerializableTransaction_settles_at nat twoDeadlocksThenOk 2
           ltac:(lia) Hpre (or_introl Hf)).
Defined.

End TransactionFacts.

(** ** Free-tier agents *)
Module FreeAgentsFacts.
Import FreeAgents.

Example free_bare : isFreeAgent "file-picker" = true. Proof. reflexivity. Qed.
Example free_versioned : isFreeAgent "file-picker@1.0.0" = true. Proof. reflexivity. Qed.
Example free_published : isFreeAgent "codebuff/file-picker@0.0.2" = true.
Proof. reflexivity. Qed.
Example not_free : isFreeAgent "codebuff/base2@1.0.0" = false. Proof. reflexivity. Qed.
Example unparsable : isFreeAgent "@1.0.0" = false. Proof. reflexivity. Qed.

(** C8: isFreeAgent holds exactly when the parsed agent id is one of the
    five free-tier agents; without a parsed agent id it is false. *)
Theorem isFreeAgent_spec (fullAgentId : string) :
  (isFreeAgent fullAgentId = true <->
     exists agentId, parseAgentId fullAgentId = Some agentId /\
                     In agentId FREE_TIER_AGENTS) /\
  (parseAgentId fullAgentId = None -> isFreeAgent fullAgentId = false) /\
  length FREE_TIER_AGENTS = 5 /\ NoDup FREE_TIER_AGENTS.
Proof.
  split; [|split; [|split]].
  - unfold isFreeAgent. destruct (parseAgentId fullAgentId) as [a|] eqn:E.
    + destruct (String.eqb a "") eqn:Ea.
      * apply String.eqb_eq in Ea; subst a. split; [discriminate|].
        intros (a' & Ha' & Hin). inversion Ha'; subst a'.
        simpl in Hin. intuition discriminate.
      * rewrite existsb_exists. split.
        -- intros (x & Hx & Heq). apply String.eqb_eq in Heq; subst x.
           exists a. auto.
        -- intros (a' & Ha' & Hin). inversion Ha'; subst a'.
           exists a. split; [exact Hin|apply String.eqb_refl].
    + split; [discriminate|]. intros (a' & Ha' & _). discriminate.
  - intros H. unfold isFreeAgent. rewrite H. reflexivity.
  - reflexivity.
  - unfold FREE_TIER_AGENTS.
    repeat constructor; simpl; intuition discriminate.
Qed.

End FreeAgentsFacts.

Module StreamFacts.
Import Stream.

Section Facts.
Context {Input Output : Type}.
Variable toolNames : list string.
Variable spawnableAgents : list string.
Variable validateToolCall : string -> Input -> option string.
Variable validateCustomToolCall : string -> Input -> option string.
Variable spawnAgentsInput : string -> Input -> Input.
Variable handler : string -> Input -> Output.

Local Abbreviation State := (State Input Output).
Local Abbreviation onTagEnd' := (@onTagEnd Input Output toolNames spawnableAgents
  validateToolCall validateCustomToolCall spawnAgentsInput).
Local Abbreviation callValidation' := (@callValidation Input toolNames spawnableAgents
  validateToolCall validateCustomToolCall spawnAgentsInput).
Local Abbreviation mainStep' := (@mainStep Input Output toolNames spawnableAgents
  validateToolCall validateCustomToolCall spawnAgentsInput).
Local Abbreviation step' := (@step Input Output toolNames spawnableAgents
  validateToolCall validateCustomToolCall spawnAgentsInput handler).
Local Abbreviation run' := (@run Input Output toolNames spawnableAgents
  validateToolCall validateCustomToolCall spawnAgentsInput handler).
Local Abbreviation Step' := (@Step Input Output toolNames spawnableAgents
  validateToolCall validateCustomToolCall spawnAgentsInput handler).
Local Abbreviation reach' := (@reach Input Output toolNames spawnableAgents
  validateToolCall validateCustomToolCall spawnAgentsInput handler).

Definition capturedPrevious (isXml : bool) (s : State) : Promise :=
  let p := previousToolCallFinished (spine s) in
  if isXml && promise_eqb p PStreamDone then PResolved else p.

Lemma onTagEnd_spec n i x (s s' : State) r :
  onTagEnd' n i x s = (s', r) ->
  (aborted s = true /\ s' = s /\ r = None) \/
  (aborted s = false /\ aborted s' = false /\ script s' = script s /\ pc s' = pc s /\
   messageHistoryBeforeStream s' = messageHistoryBeforeStream s /\
   messageHistory s' = messageHistory s /\
   streamDoneResolved (spine s') = streamDoneResolved (spine s) /\
   finished (spine s') = finished (spine s) /\
   nextId (spine s') = S (nextId (spine s)) /\
   r = Some (previousToolCallFinished (spine s')) /\
   ((exists msg, callValidation' n i = Some msg /\
       buf s' = responseHandler (buf s) (ChunkError msg) /\
       tasks (spine s') = tasks (spine s) /\
       previousToolCallFinished (spine s') = capturedPrevious x s) \/
    (callValidation' n i = None /\ buf s' = buf s /\
       (exists n' i', tasks (spine s') = tasks (spine s) ++
          [Build_Task (nextId (spine s)) n' i' x (capturedPrevious x s)]) /\
       previousToolCallFinished (spine s') = PTool (length (tasks (spine s)))))).
Proof.
  unfold onTagEnd, callValidation, capturedPrevious, executeToolCall,
    executeCustomToolCall, runExecutor, tryTransformAgentToolCall.
  destruct (aborted s) eqn:Ha; intro H.
  - left. inversion H; auto.
  - right. destruct (existsb (String.eqb n) toolNames) eqn:Hn;
      [|destruct (existsb (String.eqb n) spawnableAgents) eqn:Hs];
      simpl in H;
      match type of H with
      | context [match ?v with Some _ => _ | None => _ end] => destruct v eqn:Hv
      end; inversion H; subst; clear H; simpl;
      repeat split; auto;
      first [ left; eexists; repeat split; reflexivity
            | right; repeat split; auto; do 2 eexists; reflexivity ].
Qed.

Lemma step_Step c (s s' : State) : step' c s = Some s' -> Step' s s'.
Proof.
  destruct c as [| k |]; simpl.
  - unfold mainStep. destruct (pc s) eqn:Hpc.
    + destruct (aborted s) eqn:Ha; intro H; injection H as <-.
      * now apply StLoopExit.
      * now apply StLoopNext.
    + destruct (script s) as [|a rest] eqn:Hsc.
      * destruct (aborted s) eqn:Ha; intro H; injection H as <-.
        -- now apply StEndAborted.
        -- now apply StEnd.
      * destruct a as [t|m|c|n i|n i]; intro H.
        -- injection H as <-. now apply StCallback with (a := PCallbackText t).
        -- injection H as <-. now apply StCallback with (a := PCallbackError m).
        -- injection H as <-. now apply StYield.
        -- injection H as <-. now apply StStructured.
        -- simpl in H. destruct (aborted s) eqn:Ha.
           ++ injection H as <-. now apply StXmlAborted with (n := n) (i := i).
           ++ destruct (onTagEnd' n i true (set_script s rest)) as [s1 [p|]] eqn:Ho.
              ** injection H as <-. eapply StXml; eauto.
              ** apply onTagEnd_spec in Ho. simpl in Ho.
                 destruct Ho as [[Ha' _]|(_ & _ & _ & _ & _ & _ & _ & _ & _ & Hr & _)];
                   [congruence|discriminate].
    + destruct (resolved s p) eqn:Hr; intro H; try discriminate.
      injection H as <-. eapply StAwaitXml; eauto.
    + destruct (resolved s p) eqn:Hr; intro H; try discriminate.
      injection H as <-. eapply StAwaitFinal; eauto.
    + discriminate.
  - unfold fire. destruct (nth_error (tasks (spine s)) k) as [t|] eqn:Ht; [|discriminate].
    destruct (existsb (Nat.eqb k) (finished (spine s))) eqn:Hf; [discriminate|].
    destruct (resolved s (task_prev t)) eqn:Hr; [|discriminate].
    intro H; injection H as <-. now apply StFire.
  - destruct (aborted s) eqn:Ha; intro H; [discriminate|].
    injection H as <-. now apply StAbort.
Qed.

Lemma run_reach h actions n0 cs (s s' : State) :
  reach' h actions n0 s -> run' cs s = Some s' -> reach' h actions n0 s'.
Proof.
  revert s. induction cs as [|c cs IH]; simpl; intros s Hr Hrun.
  - now inversion Hrun; subst.
  - destruct (step' c s) as [s1|] eqn:Hs; [|discriminate].
    apply (IH s1); auto. eapply reach_step; eauto. now apply step_Step with c.
Qed.

Lemma run_init_reach h actions n0 cs (s : State) :
  run' cs (init h actions n0) = Some s -> reach' h actions n0 s.
Proof. apply run_reach, reach_init. Qed.

(** ** The reachable states *)

Definition prefix {A} (l1 l2 : list A) : Prop := exists r, l2 = l1 ++ r.

Definition xmlDone (s : State) : Prop :=
  forall k t, nth_error (tasks (spine s)) k = Some t -> task_xml t = true ->
  k < length (finished (spine s)).

Definition recorded (s : State) : list (Task Input) :=
  firstn (length (finished (spine s))) (tasks (spine s)).

Record Inv (h : list (Message Input Output)) (n0 : nat) (s : State) : Prop := {
  inv_snapshot : messageHistoryBeforeStream s = h;
  inv_next : n0 <= nextId (spine s);
  inv_ids : forall k t, nth_error (tasks (spine s)) k = Some t ->
    n0 <= task_id t < nextId (spine s);
  inv_ids_sorted : forall i j ti tj, i < j ->
    nth_error (tasks (spine s)) i = Some ti -> nth_error (tasks (spine s)) j = Some tj ->
    task_id ti < task_id tj;
  inv_fresh : nextId (spine s) = n0 ->
    previousToolCallFinished (spine s) = PStreamDone /\ tasks (spine s) = [];
  inv_first_task : forall k t, nth_error (tasks (spine s)) k = Some t -> task_id t = n0 ->
    task_prev t = if task_xml t then PResolved else PStreamDone;
  inv_chain : forall k t, nth_error (tasks (spine s)) k = Some t ->
    match k with
    | 0 => task_prev t = PResolved \/ task_prev t = PStreamDone
    | S j => task_prev t = PTool j
    end;
  inv_prev :
    (tasks (spine s) = [] /\ (previousToolCallFinished (spine s) = PResolved \/
                               previousToolCallFinished (spine s) = PStreamDone)) \/
    (tasks (spine s) <> [] /\
     previousToolCallFinished (spine s) = PTool (length (tasks (spine s)) - 1));
  inv_finished : finished (spine s) = seq 0 (length (finished (spine s)));
  inv_finished_le : length (finished (spine s)) <= length (tasks (spine s));
  inv_calls : toolCalls (buf s) = map taskCall (recorded s);
  inv_callsAdd : toolCallsToAddToMessageHistory (buf s) = map taskCall (recorded s);
  inv_results : toolResults (buf s) = map (taskResult handler) (recorded s);
  inv_resultsAdd : toolResultsToAddToMessageHistory (buf s) = map (taskResult handler) (recorded s);
  inv_chunks : filter isToolChunk (emitted (buf s)) = flat_map (taskChunks handler) (recorded s);
  inv_texts : Forall (fun m => exists text, m = assistantMessage text) (assistantMessages (buf s));
  inv_errors : Forall (fun m => exists c, m = UserMsg c) (errorMessages (buf s));
  inv_streamDone : streamDoneResolved (spine s) = true ->
    script s = [] /\ ((exists p, pc s = AwaitFinal p) \/ pc s = Done);
  inv_loop : pc s = LoopTop \/ pc s = InNext -> xmlDone s;
  inv_awaitXml : forall p, pc s = AwaitXml p ->
    xmlDone s \/ (tasks (spine s) <> [] /\ p = PTool (length (tasks (spine s)) - 1));
  inv_awaitFinal : forall p, pc s = AwaitFinal p ->
    p = previousToolCallFinished (spine s) /\ streamDoneResolved (spine s) = true /\ script s = [];
  inv_done : pc s = Done -> exists m0 A E,
    m0 <= length (finished (spine s)) /\ prefix A (assistantMessages (buf s)) /\
    prefix E (errorMessages (buf s)) /\
    messageHistory s = h ++ A ++ map toolCallMessage (map taskCall (firstn m0 (tasks (spine s))))
      ++ map (taskResult handler) (firstn m0 (tasks (spine s))) ++ E;
}.

Lemma existsb_seq k m : existsb (Nat.eqb k) (seq 0 m) = true <-> k < m.
Proof.
  rewrite existsb_exists. split.
  - intros [x [Hx Heq]]. apply Nat.eqb_eq in Heq. subst. apply in_seq in Hx. lia.
  - intro H. exists k. split; [apply in_seq; lia | apply Nat.eqb_refl].
Qed.

Lemma firstn_snoc {A} (l : list A) m t :
  nth_error l m = Some t -> firstn (S m) l = firstn m l ++ [t].
Proof.
  revert m. induction l as [|a l IH]; intros [|m] H; simpl in *; try discriminate.
  - now injection H as ->.
  - f_equal. now apply IH.
Qed.

Lemma firstn_app_le' {A} (l r : list A) m :
  m <= length l -> firstn m (l ++ r) = firstn m l.
Proof.
  intro H. rewrite firstn_app. replace (m - length l) with 0 by lia.
  simpl. apply app_nil_r.
Qed.

Lemma nth_error_snoc {A} (l : list A) x k y :
  nth_error (l ++ [x]) k = Some y ->
  (nth_error l k = Some y) \/ (k = length l /\ y = x).
Proof.
  intro H. destruct (Nat.lt_ge_cases k (length l)) as [Hlt|Hge].
  - left. now rewrite nth_error_app1 in H.
  - right. rewrite nth_error_app2 in H by lia.
    destruct (k - length l) eqn:E; simpl in H.
    + split; [lia|congruence].
    + destruct n; discriminate.
Qed.

Lemma nth_error_lt {A} (l : list A) k y : nth_error l k = Some y -> k < length l.
Proof. intro H. apply nth_error_Some. congruence. Qed.

Lemma prefix_refl {A} (l : list A) : prefix l l.
Proof. exists []. now rewrite app_nil_r. Qed.

Lemma prefix_snoc {A} (l1 l2 : list A) x : prefix l1 l2 -> prefix l1 (l2 ++ [x]).
Proof. intros [r ->]. exists (r ++ [x]). now rewrite app_assoc. Qed.

Ltac sd_contra HI :=
  let Hsd := fresh in let p := fresh in let Hp := fresh in
  intro Hsd; destruct (inv_streamDone _ _ _ HI Hsd) as [_ [[p Hp]|Hp]]; congruence.

Lemma Inv_init h actions n0 : Inv h n0 (init h actions n0).
Proof.
  constructor; simpl; auto; try (intros [|k] t H; discriminate);
    try (intros; discriminate).
  intros _ [|k] t H; discriminate.
Qed.

Lemma Inv_abort h n0 s : Inv h n0 s -> Inv h n0 (set_aborted s).
Proof. intros []; constructor; simpl; auto. Qed.

Lemma Inv_loopNext h n0 s : Inv h n0 s -> pc s = LoopTop -> Inv h n0 (set_pc s InNext).
Proof.
  intros HI Hpc. pose proof HI as [].
  constructor; simpl; auto; try congruence. sd_contra HI.
Qed.

Lemma Inv_finalize h n0 s : Inv h n0 s -> Inv h n0 (finalize s).
Proof.
  intros HI. pose proof HI as [].
  constructor; simpl; auto; try discriminate.
  - intro Hsd. split; [apply (inv_streamDone0 Hsd) | right; reflexivity].
  - intros [H|H]; discriminate.
  - intros _. exists (length (finished (spine s))), (assistantMessages (buf s)),
      (errorMessages (buf s)).
    repeat split; try apply prefix_refl; auto.
    unfold buildArray. rewrite inv_snapshot0, inv_callsAdd0, inv_resultsAdd0. reflexivity.
Qed.

Lemma Inv_end h n0 s : Inv h n0 s -> pc s = InNext -> script s = [] ->
  Inv h n0 (set_pc (resolveStreamDonePromise s)
              (AwaitFinal (previousToolCallFinished (spine s)))).
Proof.
  intros HI Hpc Hsc. pose proof HI as [].
  constructor; simpl; auto; try discriminate.
  - intros _. split; auto. left. eauto.
  - intros p Hp. injection Hp as <-. auto.
Qed.

Lemma Inv_awaitXml h n0 s p : Inv h n0 s -> pc s = AwaitXml p -> resolved s p = true ->
  Inv h n0 (set_pc s InNext).
Proof.
  intros HI Hpc Hr. pose proof HI as [].
  constructor; simpl; auto; try discriminate; try sd_contra HI.
  intros _. destruct (inv_awaitXml0 p Hpc) as [Hx|[Hne ->]]; [exact Hx|].
  simpl in Hr. rewrite inv_finished0, existsb_seq in Hr.
  assert (length (tasks (spine s)) <> 0) by (intro E; apply Hne, length_zero_iff_nil, E).
  intros k t Hk _. apply nth_error_lt in Hk. simpl in Hk |- *. lia.
Qed.

(** Buffer moves that record no tool execution. *)
Definition bufOk (b b' : Buffers Input Output) : Prop :=
  toolCalls b' = toolCalls b /\
  toolCallsToAddToMessageHistory b' = toolCallsToAddToMessageHistory b /\
  toolResults b' = toolResults b /\
  toolResultsToAddToMessageHistory b' = toolResultsToAddToMessageHistory b /\
  filter isToolChunk (emitted b') = filter isToolChunk (emitted b) /\
  (Forall (fun m => exists text, m = assistantMessage text) (assistantMessages b) ->
   Forall (fun m => exists text, m = assistantMessage text) (assistantMessages b')) /\
  (Forall (fun m => exists c, m = UserMsg c) (errorMessages b) ->
   Forall (fun m => exists c, m = UserMsg c) (errorMessages b')).

Lemma bufOk_refl b : bufOk b b.
Proof. repeat split; auto. Qed.

Lemma bufOk_trans b1 b2 b3 : bufOk b1 b2 -> bufOk b2 b3 -> bufOk b1 b3.
Proof.
  intros (H1 & H2 & H3 & H4 & H5 & H6 & H7) (G1 & G2 & G3 & G4 & G5 & G6 & G7).
  repeat split; auto; congruence.
Qed.

Lemma bufOk_emit b (c : Chunk Input Output) : isToolChunk c = false -> bufOk b (emit b c).
Proof.
  intro Hc. unfold emit. repeat split; simpl; auto.
  rewrite filter_app. simpl. rewrite Hc. apply app_nil_r.
Qed.

Lemma bufOk_pushError b message : bufOk b (pushError b message).
Proof.
  unfold pushError. repeat split; simpl; auto.
  intro H. apply Forall_app. split; auto. constructor; eauto.
Qed.

Lemma bufOk_pushAssistant b text : bufOk b (pushAssistant b text).
Proof.
  unfold pushAssistant. repeat split; simpl; auto.
  intro H. apply Forall_app. split; auto. constructor; eauto.
Qed.

Lemma bufOk_pushFullResponse b text : bufOk b (pushFullResponse b text).
Proof. unfold pushFullResponse. repeat split; simpl; auto. Qed.

Lemma bufOk_errorChunk b message : bufOk b (responseHandler b (ChunkError message)).
Proof.
  simpl. eapply bufOk_trans; [apply bufOk_pushError|]. now apply bufOk_emit.
Qed.

Lemma bufOk_parserCallback b a : isCallback a = true -> bufOk b (parserCallback b a).
Proof.
  destruct a as [text|message| | |]; simpl; try discriminate; intros _.
  - destruct (String.eqb text ""); [now apply bufOk_emit|].
    eapply bufOk_trans; [apply bufOk_pushAssistant|]. now apply bufOk_emit.
  - now apply bufOk_emit.
Qed.

Lemma bufOk_loopBody b c : bufOk b (loopBody b c).
Proof.
  destruct c as [text|text|message|n i]; simpl.
  - apply bufOk_trans with (emit b (ChunkString text));
      [apply bufOk_emit; reflexivity|apply bufOk_pushFullResponse].
  - now apply bufOk_emit.
  - apply bufOk_trans with (emit b (ChunkError message));
      [apply bufOk_emit; reflexivity|apply bufOk_pushError].
  - apply bufOk_refl.
Qed.

Lemma Inv_bufstep h n0 s b' sc p' :
  Inv h n0 s -> pc s = InNext -> (p' = InNext \/ p' = LoopTop) -> bufOk (buf s) b' ->
  Inv h n0 (Build_State (aborted s) sc p' (messageHistoryBeforeStream s)
              (messageHistory s) b' (spine s)).
Proof.
  intros HI Hpc Hp' (B1 & B2 & B3 & B4 & B5 & B6 & B7). pose proof HI as [].
  assert (Hsd : streamDoneResolved (spine s) = false).
  { case_eq (streamDoneResolved (spine s)); intro E; auto.
    destruct (inv_streamDone0 E) as [_ [[p Hp]|Hp]]; congruence. }
  constructor; simpl; auto; try congruence.
  all: try (unfold recorded in *; simpl; congruence).
  all: intros; destruct Hp'; congruence.
Qed.

Lemma capturedPrevious_cases x s :
  (tasks (spine s) = [] /\ (previousToolCallFinished (spine s) = PResolved \/
                             previousToolCallFinished (spine s) = PStreamDone)) \/
  (tasks (spine s) <> [] /\
   previousToolCallFinished (spine s) = PTool (length (tasks (spine s)) - 1)) ->
  (tasks (spine s) = [] /\ (capturedPrevious x s = PResolved \/
                             capturedPrevious x s = PStreamDone)) \/
  (tasks (spine s) <> [] /\
   capturedPrevious x s = PTool (length (tasks (spine s)) - 1)).
Proof.
  unfold capturedPrevious.
  intros [[Ht [E|E]]|[Ht E]]; rewrite E; destruct x; simpl; auto.
Qed.

Lemma Inv_tagEnd h n0 s rest n i x s1 r p' :
  Inv h n0 s -> pc s = InNext -> aborted s = false ->
  onTagEnd' n i x (set_script s rest) = (s1, r) ->
  (p' = InNext -> xmlDone s1) ->
  (forall p, p' = AwaitXml p -> xmlDone s1 \/
     (tasks (spine s1) <> [] /\ p = PTool (length (tasks (spine s1)) - 1))) ->
  (p' = InNext \/ exists p, p' = AwaitXml p) ->
  Inv h n0 (set_pc s1 p').
Proof.
  intros HI Hpc Ha Ho Hx1 Hx2 Hp'. pose proof HI as [].
  assert (Hsd : streamDoneResolved (spine s) = false).
  { case_eq (streamDoneResolved (spine s)); intro E; auto.
    destruct (inv_streamDone0 E) as [_ [[p Hp]|Hp]]; congruence. }
  apply onTagEnd_spec in Ho. simpl in Ho.
  destruct Ho as [[Ha' _]|(_ & Ha1 & Hsc1 & Hpc1 & Hh1 & Hm1 & Hsd1 & Hf1 & Hn1 & Hr & Hcase)];
    [congruence|].
  unfold xmlDone in Hx1, Hx2.
  destruct Hcase as [(msg & Hv & Hb & Ht & Hprev) | (Hv & Hb & (n' & i' & Ht) & Hprev)].
  - assert (HB : bufOk (buf s) (buf s1)) by (rewrite Hb; apply bufOk_errorChunk).
    destruct HB as (B1 & B2 & B3 & B4 & B5 & B6 & B7).
    rewrite Ht, Hf1 in Hx1, Hx2.
    constructor; unfold recorded, xmlDone; simpl;
      rewrite ?Ht, ?Hf1, ?Hn1, ?Hsd1, ?Hprev, ?Hh1, ?Hm1, ?B1, ?B2, ?B3, ?B4, ?B5.
    all: change (capturedPrevious x (set_script s rest)) with (capturedPrevious x s).
    + exact inv_snapshot0.
    + lia.
    + intros k t Hk. specialize (inv_ids0 k t Hk). lia.
    + exact inv_ids_sorted0.
    + intro E. lia.
    + exact inv_first_task0.
    + exact inv_chain0.
    + now apply capturedPrevious_cases.
    + exact inv_finished0.
    + exact inv_finished_le0.
    + exact inv_calls0.
    + exact inv_callsAdd0.
    + exact inv_results0.
    + exact inv_resultsAdd0.
    + exact inv_chunks0.
    + now apply B6.
    + now apply B7.
    + congruence.
    + intros [E|E]; [destruct Hp' as [E'|[q E']]; congruence | exact (Hx1 E)].
    + exact Hx2.
    + intros p E. destruct Hp' as [E'|[q E']]; congruence.
    + intros E. destruct Hp' as [E'|[q E']]; congruence.
  - change (capturedPrevious x (set_script s rest)) with (capturedPrevious x s) in Ht.
    remember (Build_Task (nextId (spine s)) n' i' x (capturedPrevious x s)) as T eqn:HT.
    rewrite Ht, Hf1 in Hx1, Hx2.
    constructor; unfold recorded, xmlDone; simpl;
      rewrite ?Ht, ?Hf1, ?Hn1, ?Hsd1, ?Hprev, ?Hh1, ?Hm1, ?Hb.
    + exact inv_snapshot0.
    + lia.
    + intros k t Hk. apply nth_error_snoc in Hk as [Hk|[-> ->]].
      * specialize (inv_ids0 k t Hk). lia.
      * subst T. simpl. lia.
    + intros i0 j ti tj Hij Hi Hj.
      apply nth_error_snoc in Hi as [Hi|[Ei ->]];
        apply nth_error_snoc in Hj as [Hj|[Ej ->]].
      * eauto.
      * subst T. simpl. specialize (inv_ids0 _ _ Hi). lia.
      * apply nth_error_lt in Hj. lia.
      * lia.
    + intro E. lia.
    + intros k t Hk Hid. apply nth_error_snoc in Hk as [Hk|[_ ->]]; [eauto|].
      subst T. simpl in *. destruct (inv_fresh0 Hid) as [Hp _].
      unfold capturedPrevious. rewrite Hp. destruct x; reflexivity.
    + intros k t Hk. apply nth_error_snoc in Hk as [Hk|[-> ->]]; [now apply inv_chain0|].
      subst T. simpl.
      destruct (capturedPrevious_cases x s inv_prev0) as [[E [C|C]]|[E C]];
        rewrite C; try (rewrite E; simpl; auto).
      destruct (length (tasks (spine s))) as [|j] eqn:L.
      * apply length_zero_iff_nil in L. contradiction.
      * f_equal. lia.
    + right. split.
      * intro E. apply app_eq_nil in E as [_ E]. discriminate.
      * rewrite length_app. simpl. f_equal. lia.
    + exact inv_finished0.
    + rewrite length_app. lia.
    + rewrite firstn_app_le' by lia. exact inv_calls0.
    + rewrite firstn_app_le' by lia. exact inv_callsAdd0.
    + rewrite firstn_app_le' by lia. exact inv_results0.
    + rewrite firstn_app_le' by lia. exact inv_resultsAdd0.
    + rewrite firstn_app_le' by lia. exact inv_chunks0.
    + exact inv_texts0.
    + exact inv_errors0.
    + congruence.
    + intros [E|E]; [destruct Hp' as [E'|[q E']]; congruence | exact (Hx1 E)].
    + exact Hx2.
    + intros p E. destruct Hp' as [E'|[q E']]; congruence.
    + intros E. destruct Hp' as [E'|[q E']]; congruence.
Qed.

Lemma fire_index h n0 s k t :
  Inv h n0 s -> nth_error (tasks (spine s)) k = Some t ->
  existsb (Nat.eqb k) (finished (spine s)) = false ->
  resolved s (task_prev t) = true -> k = length (finished (spine s)).
Proof.
  intros HI Hk Hf Hr. pose proof (inv_finished _ _ _ HI) as Hfin.
  pose proof (inv_chain _ _ _ HI k t Hk) as Hc.
  remember (length (finished (spine s))) as m.
  rewrite Hfin in Hf. assert (~ k < m) by (rewrite <- existsb_seq; congruence).
  destruct k as [|j].
  - lia.
  - unfold resolved in Hr. rewrite Hc, Hfin, existsb_seq in Hr. lia.
Qed.

Lemma Inv_fire h n0 s k t :
  Inv h n0 s -> nth_error (tasks (spine s)) k = Some t ->
  existsb (Nat.eqb k) (finished (spine s)) = false ->
  resolved s (task_prev t) = true -> Inv h n0 (fireState handler s k t).
Proof.
  intros HI Hk Hf Hr. pose proof (fire_index _ _ _ _ _ HI Hk Hf Hr) as Hm.
  pose proof HI as [].
  assert (Hrec : firstn (S (length (finished (spine s)))) (tasks (spine s)) = recorded s ++ [t])
    by (unfold recorded; apply firstn_snoc; congruence).
  constructor; unfold recorded, xmlDone; simpl;
    rewrite ?length_app; simpl; rewrite ?Nat.add_1_r, ?Hrec.
  all: unfold recorded in *.
  - exact inv_snapshot0.
  - exact inv_next0.
  - exact inv_ids0.
  - exact inv_ids_sorted0.
  - exact inv_fresh0.
  - exact inv_first_task0.
  - exact inv_chain0.
  - exact inv_prev0.
  - rewrite seq_S, <- inv_finished0. simpl. congruence.
  - apply nth_error_lt in Hk. lia.
  - rewrite inv_calls0, map_app. reflexivity.
  - rewrite inv_callsAdd0, map_app. reflexivity.
  - rewrite inv_results0, map_app. reflexivity.
  - rewrite inv_resultsAdd0, map_app. reflexivity.
  - rewrite <- app_assoc, filter_app, inv_chunks0, flat_map_app. simpl.
    rewrite ?app_nil_r. reflexivity.
  - exact inv_texts0.
  - exact inv_errors0.
  - exact inv_streamDone0.
  - intros Hp k' t' Hk' Hx. specialize (inv_loop0 Hp k' t' Hk' Hx). lia.
  - intros p Hp. destruct (inv_awaitXml0 p Hp) as [Hx|Hx]; [left|right; exact Hx].
    intros k' t' Hk' Hx'. specialize (Hx k' t' Hk' Hx'). lia.
  - exact inv_awaitFinal0.
  - intros Hp. destruct (inv_done0 Hp) as (m0 & A & E & Hm0 & HA & HE & Hh).
    exists m0, A, E. repeat split; auto; lia.
Qed.

Lemma Inv_Step h n0 s s' : Inv h n0 s -> Step' s s' -> Inv h n0 s'.
Proof.
  intros HI HS. destruct HS.
  - now apply Inv_abort.
  - now apply Inv_fire.
  - now apply Inv_finalize.
  - now apply Inv_loopNext.
  - now apply Inv_finalize.
  - now apply Inv_end.
  - exact (Inv_bufstep _ _ _ _ rest (pc s) HI H (or_introl H)
             (bufOk_parserCallback _ _ H1)).
  - exact (Inv_bufstep _ _ _ _ rest LoopTop HI H (or_intror eq_refl) (bufOk_loopBody _ _)).
  - destruct (onTagEnd' n i false (set_script s rest)) as [s1 r] eqn:Ho. simpl.
    destruct (aborted s) eqn:Ha.
    + unfold onTagEnd in Ho. simpl in Ho. rewrite Ha in Ho. injection Ho as <- _.
      exact (Inv_bufstep _ _ _ (buf s) rest (pc s) HI H (or_introl H) (bufOk_refl _)).
    + assert (Hpc1 : pc s1 = InNext).
      { apply onTagEnd_spec in Ho. simpl in Ho. destruct Ho as [[? _]|Ho]; [congruence|].
        destruct Ho as (_ & _ & _ & Hp & _). congruence. }
      replace s1 with (set_pc s1 InNext) by (destruct s1; simpl in *; now subst).
      eapply Inv_tagEnd; eauto.
      * intros _. pose proof (inv_loop _ _ _ HI (or_intror H)) as Hx.
        apply onTagEnd_spec in Ho. simpl in Ho. destruct Ho as [[? _]|Ho]; [congruence|].
        destruct Ho as (_ & _ & _ & _ & _ & _ & _ & Hf1 & _ & _ & Hc).
        unfold xmlDone in *. rewrite Hf1.
        destruct Hc as [(msg & _ & _ & Ht & _)|(_ & _ & (n' & i' & Ht) & _)]; rewrite Ht.
        -- exact Hx.
        -- intros k t Hk Hxml. apply nth_error_snoc in Hk as [Hk|[_ ->]]; eauto.
           discriminate.
      * intros p E. discriminate.
  - exact (Inv_bufstep _ _ _ (buf s) rest (pc s) HI H (or_introl H) (bufOk_refl _)).
  - apply (Inv_tagEnd _ _ _ _ _ _ _ _ _ _ HI H H1 H2).
    + intros E. discriminate.
    + intros p0 E. injection E as <-.
      apply onTagEnd_spec in H2. simpl in H2. destruct H2 as [[? _]|Ho]; [congruence|].
      destruct Ho as (_ & _ & _ & _ & _ & _ & _ & Hf1 & _ & Hr & Hc).
      injection Hr as ->. unfold xmlDone. rewrite Hf1.
      destruct Hc as [(msg & _ & _ & Ht & Hp)|(_ & _ & (n' & i' & Ht) & Hp)].
      * left. rewrite Ht. exact (inv_loop _ _ _ HI (or_intror H)).
      * right. rewrite Hp, Ht, length_app. simpl. split.
        -- intro E. apply app_eq_nil in E as [_ E]. discriminate.
        -- f_equal. lia.
    + right. eauto.
  - eapply Inv_awaitXml; eauto.
  - now apply Inv_finalize.
Qed.

Lemma reach_Inv h actions n0 s : reach' h actions n0 s -> Inv h n0 s.
Proof.
  induction 1.
  - apply Inv_init.
  - eapply Inv_Step; eauto.
Qed.

Lemma run_Inv h actions n0 cs s :
  run' cs (init h actions n0) = Some s -> Inv h n0 s.
Proof. intro H. eapply reach_Inv, run_init_reach, H. Qed.

(** ** The committed log *)

Lemma sorted_NoDup {A} (f : A -> nat) (l : list A) :
  (forall i j a b, i < j -> nth_error l i = Some a -> nth_error l j = Some b -> f a < f b) ->
  NoDup (map f l).
Proof.
  induction l as [|a l IH]; intro H; simpl; constructor.
  - intro Hin. apply in_map_iff in Hin as [b [Hb Hin]].
    apply In_nth_error in Hin as [j Hj].
    specialize (H 0 (S j) a b ltac:(lia) eq_refl Hj). lia.
  - apply IH. intros i j x y Hij Hi Hj. apply (H (S i) (S j)); simpl; auto; lia.
Qed.

Lemma recorded_NoDup h n0 s : Inv h n0 s -> NoDup (map task_id (recorded s)).
Proof.
  intro HI. pose proof (sorted_NoDup task_id _ (inv_ids_sorted _ _ _ HI)) as H.
  unfold recorded. rewrite <- (firstn_skipn (length (finished (spine s))) (tasks (spine s))) in H.
  rewrite map_app in H. exact (NoDup_app_remove_r _ _ H).
Qed.

Lemma pairedBefore_app (l1 l2 : list (Message Input Output)) :
  pairedBefore l1 -> pairedBefore l2 -> pairedBefore (l1 ++ l2).
Proof.
  intros H1 H2 i id name out Hi.
  destruct (Nat.lt_ge_cases i (length l1)) as [Hlt|Hge].
  - rewrite nth_error_app1 in Hi by exact Hlt.
    destruct (H1 _ _ _ _ Hi) as (j & m & Hj & Hm & Hin).
    exists j, m. repeat split; auto. rewrite nth_error_app1 by lia. exact Hm.
  - rewrite nth_error_app2 in Hi by exact Hge.
    destruct (H2 _ _ _ _ Hi) as (j & m & Hj & Hm & Hin).
    exists (length l1 + j), m. repeat split; auto; [lia|].
    rewrite nth_error_app2 by lia. now replace (length l1 + j - length l1) with j by lia.
Qed.

Lemma Forall_no_toolMsg (P : Message Input Output -> Prop) (l : list (Message Input Output)) i id name out :
  (forall m, P m -> isToolMsg m = false) -> Forall P l ->
  nth_error l i = Some (ToolMsg id name out) -> False.
Proof.
  intros HP Hl Hi. apply nth_error_In in Hi. rewrite Forall_forall in Hl.
  specialize (HP _ (Hl _ Hi)). discriminate.
Qed.

Lemma Forall_no_calls (P : Message Input Output -> Prop) (l : list (Message Input Output)) :
  Forall P l -> (forall m, P m -> toolCallIds m = []) -> flat_map toolCallIds l = [].
Proof.
  intros Hl HP. induction Hl as [|m l Hm Hl IH]; simpl; auto. rewrite HP, IH; auto.
Qed.

Definition committed (A : list (Message Input Output)) (ts : list (Task Input))
    (E : list (Message Input Output)) : list (Message Input Output) :=
  A ++ map toolCallMessage (map taskCall ts) ++ map (taskResult handler) ts ++ E.

Lemma committed_ids A ts E :
  Forall (fun m => exists text, m = assistantMessage text) A ->
  Forall (fun m => exists c, m = UserMsg c) E ->
  flat_map toolCallIds (committed A ts E) = map task_id ts.
Proof.
  intros HA HE. unfold committed. rewrite !flat_map_app.
  rewrite (Forall_no_calls _ A HA) by (intros m [t ->]; reflexivity).
  rewrite (Forall_no_calls _ E HE) by (intros m [c ->]; reflexivity).
  simpl. rewrite app_nil_r.
  induction ts as [|t ts IH]; simpl; auto. rewrite IH. reflexivity.
Qed.

Lemma committed_pairedBefore A ts E :
  Forall (fun m => exists text, m = assistantMessage text) A ->
  Forall (fun m => exists c, m = UserMsg c) E ->
  pairedBefore (committed A ts E).
Proof.
  intros HA HE i id name out Hi. unfold committed in Hi.
  assert (HnA : forall m : Message Input Output,
            (exists text, m = assistantMessage text) -> isToolMsg m = false)
    by (intros m [t ->]; reflexivity).
  assert (HnE : forall m, (exists c, m = @UserMsg Input Output c) -> isToolMsg m = false)
    by (intros m [c ->]; reflexivity).
  destruct (Nat.lt_ge_cases i (length A)) as [H1|H1].
  - rewrite nth_error_app1 in Hi by exact H1. exfalso. exact (Forall_no_toolMsg _ _ _ _ _ _ HnA HA Hi).
  - rewrite nth_error_app2 in Hi by exact H1.
    destruct (Nat.lt_ge_cases (i - length A) (length ts)) as [H2|H2].
    + rewrite nth_error_app1 in Hi by (rewrite !length_map; exact H2).
      rewrite !nth_error_map in Hi. destruct (nth_error ts (i - length A)); discriminate.
    + rewrite nth_error_app2 in Hi by (rewrite !length_map; exact H2).
      rewrite !length_map in Hi.
      destruct (Nat.lt_ge_cases (i - length A - length ts) (length ts)) as [H3|H3].
      * rewrite nth_error_app1 in Hi by (rewrite length_map; exact H3).
        rewrite nth_error_map in Hi.
        destruct (nth_error ts (i - length A - length ts)) as [t|] eqn:Ht; [|discriminate].
        injection Hi as Hid _ _.
        exists (length A + (i - length A - length ts)), (toolCallMessage (taskCall t)).
        repeat split; [lia| |].
        -- unfold committed. rewrite nth_error_app2 by lia.
           replace (length A + (i - length A - length ts) - length A)
             with (i - length A - length ts) by lia.
           rewrite nth_error_app1 by (rewrite !length_map; lia).
           rewrite !nth_error_map, Ht. reflexivity.
        -- simpl. left. exact Hid.
      * rewrite nth_error_app2 in Hi by (rewrite length_map; exact H3).
        exfalso. exact (Forall_no_toolMsg _ _ _ _ _ _ HnE HE Hi).
Qed.

Lemma committed_pairedOnce A ts E :
  Forall (fun m => exists text, m = assistantMessage text) A ->
  Forall (fun m => exists c, m = UserMsg c) E ->
  NoDup (map task_id ts) -> pairedOnce (committed A ts E).
Proof.
  intros HA HE Hnd i id name out Hi.
  destruct (committed_pairedBefore A ts E HA HE i id name out Hi) as (j & m & _ & Hm & Hin).
  rewrite committed_ids by auto.
  apply (proj1 (NoDup_count_occ' Nat.eq_dec _) Hnd).
  rewrite <- (committed_ids A ts E) by auto.
  apply in_flat_map. exists m. split; auto. eapply nth_error_In; eauto.
Qed.

Lemma mainStep_to_done s s' :
  mainStep' s = Some s' -> pc s' = Done -> aborted s = false ->
  exists p, pc s = AwaitFinal p /\ resolved s p = true /\ s' = finalize s.
Proof.
  intros Hs Hd Ha. unfold mainStep in Hs. destruct (pc s) eqn:Hpc.
  - rewrite Ha in Hs. injection Hs as <-. discriminate.
  - destruct (script s) as [|a rest] eqn:Hsc.
    + rewrite Ha in Hs. injection Hs as <-. discriminate.
    + destruct a as [t|m|c|n i|n i].
      * injection Hs as <-. simpl in Hd. congruence.
      * injection Hs as <-. simpl in Hd. congruence.
      * injection Hs as <-. discriminate.
      * injection Hs as <-.
        destruct (onTagEnd' n i false (set_script s rest)) as [s1 r] eqn:Ho.
        apply onTagEnd_spec in Ho. simpl in *.
        destruct Ho as [(_ & -> & _)|(_ & _ & _ & Hp & _)]; simpl in *; congruence.
      * simpl in Hs. rewrite Ha in Hs.
        destruct (onTagEnd' n i true (set_script s rest)) as [s1 [p|]] eqn:Ho;
          injection Hs as <-; [discriminate|].
        apply onTagEnd_spec in Ho. simpl in *.
        destruct Ho as [(_ & -> & _)|(_ & _ & _ & Hp & _)]; simpl in *; congruence.
  - destruct (resolved s p); [|discriminate]. injection Hs as <-. discriminate.
  - destruct (resolved s p) eqn:Hr; [|discriminate]. injection Hs as <-. eauto.
  - discriminate.
Qed.

Lemma prefix_app {A} (l r : list A) : prefix l (l ++ r).
Proof. exists r. reflexivity. Qed.

Lemma prefix_trans {A} (l1 l2 l3 : list A) : prefix l1 l2 -> prefix l2 l3 -> prefix l1 l3.
Proof. intros [r1 ->] [r2 ->]. exists (r1 ++ r2). now rewrite app_assoc. Qed.

Lemma prefix_In {A} (l1 l2 : list A) x : prefix l1 l2 -> In x l1 -> In x l2.
Proof. intros [r ->] H. apply in_or_app. now left. Qed.

Lemma errors_responseHandler (b : Buffers Input Output) c :
  prefix (errorMessages b) (errorMessages (responseHandler b c)).
Proof. destruct c; simpl; first [apply prefix_refl | apply prefix_app]. Qed.

Lemma errors_parserCallback (b : Buffers Input Output) a :
  prefix (errorMessages b) (errorMessages (parserCallback b a)).
Proof.
  destruct a as [text|message| | |]; simpl; try apply prefix_refl.
  destruct (String.eqb text ""); apply prefix_refl.
Qed.

Lemma errors_loopBody (b : Buffers Input Output) c : prefix (errorMessages b) (errorMessages (loopBody b c)).
Proof. destruct c; simpl; first [apply prefix_refl | apply prefix_app]. Qed.

Lemma errors_recordToolCall (b : Buffers Input Output) t :
  prefix (errorMessages b) (errorMessages (recordToolCall handler b t)).
Proof. apply prefix_refl. Qed.

Ltac grow_tac :=
  repeat match goal with
         | |- _ /\ _ => split
         | |- _ -> _ => intro
         | |- forall _, _ => intro
         end;
  auto using prefix_refl, errors_recordToolCall, errors_parserCallback, errors_loopBody;
  try congruence.

(** How a move changes the step's state: ids and executions only grow, the
    error messages only grow, nothing but [finalize] ends the step, and a
    finished step only settles executions or sees the abort signal. *)
Lemma Step_grow s s' : Step' s s' ->
  nextId (spine s) <= nextId (spine s') /\
  (forall t, In t (tasks (spine s')) -> In t (tasks (spine s)) \/ nextId (spine s) <= task_id t) /\
  prefix (errorMessages (buf s)) (errorMessages (buf s')) /\
  (pc s = Done -> pc s' = Done /\ messageHistory s' = messageHistory s /\
                 tasks (spine s') = tasks (spine s)) /\
  (pc s <> Done -> pc s' = Done -> s' = finalize s) /\
  (aborted s = true -> aborted s' = true /\ tasks (spine s') = tasks (spine s) /\
                       nextId (spine s') = nextId (spine s)).
Proof.
  intro HS. destruct HS; simpl.
  - grow_tac.
  - grow_tac.
  - grow_tac.
  - grow_tac.
  - grow_tac.
  - grow_tac.
  - grow_tac.
  - grow_tac.
  - destruct (onTagEnd' n i false (set_script s rest)) as [s1 r] eqn:Ho. simpl.
    apply onTagEnd_spec in Ho. simpl in Ho.
    destruct Ho as [(Ha & -> & _)|(Ha & _ & _ & Hpc & _ & _ & _ & _ & Hn & _ & Hc)].
    + simpl. grow_tac.
    + repeat split; try congruence; [rewrite Hn; lia| |].
      * intros t Ht. destruct Hc as [(_ & _ & _ & Et & _)|(_ & _ & (n' & i' & Et) & _)];
          rewrite Et in Ht; [now left|].
        apply in_app_or in Ht as [Ht|[<-|[]]]; [now left|right; simpl; lia].
      * destruct Hc as [(msg & _ & Eb & _)|(_ & Eb & _)]; rewrite Eb;
          [apply (errors_responseHandler (buf s) (ChunkError msg))|apply prefix_refl].
  - grow_tac.
  - apply onTagEnd_spec in H2. simpl in H2.
    destruct H2 as [(Ha & _ & _)|(Ha & _ & _ & Hpc & _ & _ & _ & _ & Hn & _ & Hc)];
      [congruence|].
    repeat split; try congruence; [rewrite Hn; lia| |].
    + intros t Ht. destruct Hc as [(_ & _ & _ & Et & _)|(_ & _ & (n' & i' & Et) & _)];
        rewrite Et in Ht; [now left|].
      apply in_app_or in Ht as [Ht|[<-|[]]]; [now left|right; simpl; lia].
    + destruct Hc as [(msg & _ & Eb & _)|(_ & Eb & _)]; rewrite Eb;
        [apply (errors_responseHandler (buf s) (ChunkError msg))|apply prefix_refl].
  - grow_tac.
  - grow_tac.
Qed.

(** ** Calls that fail validation *)

Lemma dispatch_invalid (s : State) (x : bool) (name : string) (input : Input) rest msg :
  pc s = InNext -> aborted s = false ->
  script s = (if x then PXml name input else PStructured name input) :: rest ->
  callValidation' name input = Some msg ->
  exists s1, mainStep' s = Some s1 /\
    buf s1 = responseHandler (buf s) (ChunkError msg) /\
    tasks (spine s1) = tasks (spine s) /\ nextId (spine s1) = S (nextId (spine s)) /\
    pc s1 <> Done.
Proof.
  intros Hpc Ha Hsc Hv. unfold mainStep. rewrite Hpc, Hsc.
  destruct x; simpl; [rewrite Ha|];
    [destruct (onTagEnd' name input true (set_script s rest)) as [s1 r] eqn:Ho
    |destruct (onTagEnd' name input false (set_script s rest)) as [s1 r] eqn:Ho];
    apply onTagEnd_spec in Ho; simpl in Ho;
    (destruct Ho as [(Ha' & _)|(_ & _ & _ & Hpc1 & _ & _ & _ & _ & Hn & Hr & Hc)];
     [congruence|]);
    (destruct Hc as [(msg' & Hv' & Hb & Ht & _)|(Hv' & _)]; [|congruence]);
    rewrite Hv in Hv'; injection Hv' as <-.
  - rewrite Hr. eexists. split; [reflexivity|]. simpl. repeat split; auto. discriminate.
  - eexists. split; [reflexivity|]. simpl. repeat split; auto. congruence.
Qed.

Lemma In_firstn {A} (x : A) n l : In x (firstn n l) -> In x l.
Proof.
  intro H. rewrite <- (firstn_skipn n l). apply in_or_app. now left.
Qed.

Section AfterInvalid.
Variables (h : list (Message Input Output)) (actions : list (ParserAction Input)) (n0 : nat).
Variables (id : nat) (errMsg : Message Input Output).

Definition afterInvalid (s : State) : Prop :=
  (forall t, In t (tasks (spine s)) -> task_id t <> id) /\ id < nextId (spine s) /\
  ((pc s <> Done /\ In errMsg (errorMessages (buf s))) \/
   (pc s = Done /\ exists A ts E,
      messageHistory s = h ++ committed A ts E /\
      (forall t, In t ts -> In t (tasks (spine s))) /\ In errMsg E /\
      Forall (fun m => exists text, m = assistantMessage text) A /\
      Forall (fun m => exists c, m = UserMsg c) E)).

Lemma afterInvalid_step s s' :
  reach' h actions n0 s -> Step' s s' -> afterInvalid s -> afterInvalid s'.
Proof.
  intros Hr HS (Hids & Hlt & Hcase). pose proof (reach_Inv _ _ _ _ Hr) as HI.
  destruct (Step_grow _ _ HS) as (G1 & G2 & G3 & G4 & G5 & _).
  split; [|split].
  - intros t Ht. destruct (G2 t Ht) as [Ht'|Hle]; [now apply Hids|lia].
  - lia.
  - destruct Hcase as [[Hpc Hin]|[Hpc (A & ts & E & Hh & Hts & Hin & HA & HE)]].
    + destruct (pc s') eqn:Hpc'; try (left; split; [discriminate|eapply prefix_In; eauto]).
      right. split; auto. rewrite (G5 Hpc eq_refl). pose proof HI as [].
      exists (assistantMessages (buf s)), (recorded s), (errorMessages (buf s)).
      repeat split; auto.
      * simpl. unfold buildArray, committed.
        rewrite inv_snapshot0, inv_callsAdd0, inv_resultsAdd0. reflexivity.
      * intros t Ht. exact (In_firstn _ _ _ Ht).
    + destruct (G4 Hpc) as (Hpc' & Hh' & Ht').
      right. split; auto. exists A, ts, E. rewrite Hh', Ht'. auto.
Qed.

Lemma afterInvalid_run cs s s' :
  reach' h actions n0 s -> afterInvalid s -> run' cs s = Some s' ->
  reach' h actions n0 s' /\ afterInvalid s'.
Proof.
  revert s. induction cs as [|c cs IH]; simpl; intros s Hr Ha Hrun.
  - injection Hrun as <-. auto.
  - destruct (step' c s) as [s1|] eqn:Hs; [|discriminate].
    pose proof (step_Step _ _ _ Hs) as HS.
    apply (IH s1); auto.
    + eapply reach_step; eauto.
    + eapply afterInvalid_step; eauto.
Qed.

End AfterInvalid.

Lemma committed_no_id A ts E id m :
  Forall (fun m => exists text, m = assistantMessage text) A ->
  Forall (fun m => exists c, m = UserMsg c) E ->
  ~ In id (map task_id ts) -> In m (committed A ts E) ->
  ~ In id (toolCallIds m) /\ forall n o, m <> ToolMsg id n o.
Proof.
  intros HA HE Hid Hm. unfold committed in Hm.
  rewrite Forall_forall in HA, HE.
  apply in_app_or in Hm as [Hm|Hm]; [|apply in_app_or in Hm as [Hm|Hm];
    [|apply in_app_or in Hm as [Hm|Hm]]].
  - destruct (HA m Hm) as [t ->]. split; [intros []|discriminate].
  - rewrite map_map in Hm. apply in_map_iff in Hm as [t [<- Ht]].
    split; [|discriminate]. simpl. intros [E'|[]]. apply Hid.
    rewrite <- E'. now apply in_map.
  - apply in_map_iff in Hm as [t [<- Ht]]. split; [intros []|].
    intros n o E'. injection E' as E' _ _. apply Hid. rewrite <- E'. now apply in_map.
  - destruct (HE m Hm) as [c ->]. split; [intros []|discriminate].
Qed.

(** ** Abort, inline awaits and the first call *)

Lemma aborted_run cs (s s' : State) :
  aborted s = true -> run' cs s = Some s' ->
  aborted s' = true /\ tasks (spine s') = tasks (spine s) /\
  nextId (spine s') = nextId (spine s).
Proof.
  revert s. induction cs as [|c cs IH]; simpl; intros s Ha Hrun.
  - injection Hrun as <-. auto.
  - destruct (step' c s) as [s1|] eqn:Hs; [|discriminate].
    destruct (Step_grow _ _ (step_Step _ _ _ Hs)) as (_ & _ & _ & _ & _ & G6).
    destruct (G6 Ha) as (Ha1 & Ht1 & Hn1).
    destruct (IH s1 Ha1 Hrun) as (? & -> & ->). auto.
Qed.

(** Outside the parser's run ([InNext]) a move emits tool chunks only. *)
Lemma Step_emitted s s' : Step' s s' ->
  pc s = InNext \/
  exists l, emitted (buf s') = emitted (buf s) ++ l /\
            Forall (fun ch => isToolChunk ch = true) l.
Proof.
  destruct 1; try (left; assumption); right;
    try (exists []; simpl; rewrite app_nil_r; split; [reflexivity|constructor]).
  eexists. unfold fireState, recordToolCall, responseHandler, emit. simpl.
  rewrite <- app_assoc. split; [reflexivity|]. repeat constructor.
Qed.

Lemma nth_error_In_firstn {A} (l : list A) k m t :
  k < m -> nth_error l k = Some t -> In t (firstn m l).
Proof.
  revert k m. induction l as [|a l IH]; intros [|k] [|m] Hk Hn; simpl in *;
    try lia; try discriminate.
  - injection Hn as ->. now left.
  - right. apply (IH k m); auto. lia.
Qed.

Lemma append_empty_r (x : string) : (x ++ "")%string = x.
Proof. induction x as [|a x IH]; simpl; [reflexivity|now rewrite IH]. Qed.

Lemma append_assoc' (x y z : string) : (x ++ (y ++ z))%string = ((x ++ y) ++ z)%string.
Proof. induction x as [|a x IH]; simpl; [reflexivity|now rewrite IH]. Qed.

Lemma concat_empty_cons (x : string) l :
  String.concat "" (x :: l) = (x ++ String.concat "" l)%string.
Proof. destruct l; simpl; [now rewrite append_empty_r|reflexivity]. Qed.

Lemma concat_empty_app (l1 l2 : list string) :
  String.concat "" (l1 ++ l2) = (String.concat "" l1 ++ String.concat "" l2)%string.
Proof.
  induction l1 as [|x l1 IH]; [reflexivity|].
  rewrite <- app_comm_cons, !concat_empty_cons, IH. apply append_assoc'.
Qed.

(** ** What a stretch of moves does to the buffers *)

(** [Frame b b' pre]: going from buffers [b] to [b'] while the parser
    consumed [pre]. *)
Definition Frame (b b' : Buffers Input Output) (pre : list (ParserAction Input)) : Prop :=
  fullResponseChunks b' = fullResponseChunks b ++ yieldTexts pre /\
  assistantMessages b' = assistantMessages b ++ map assistantMessage (callbackTexts pre) /\
  filter isTextChunk (emitted b') = filter isTextChunk (emitted b) ++ textChunks pre /\
  length (filter isErrorChunk (emitted b')) + length (errorMessages b) =
    length (filter isErrorChunk (emitted b)) + length (errorMessages b') + callbackErrors pre /\
  prefix (errorMessages b) (errorMessages b') /\
  (hadToolCallError b' = true <->
     hadToolCallError b = true \/ length (errorMessages b) < length (errorMessages b')).

Ltac frame_tac :=
  unfold Frame, yieldTexts, callbackTexts, textChunks, callbackErrors; simpl;
  rewrite ?filter_app, ?app_nil_r, ?length_app; simpl;
  repeat split; rewrite ?app_nil_r; simpl; try lia; try tauto;
  try apply prefix_refl; try apply prefix_app; try (intuition lia).

Lemma Frame_refl b : Frame b b [].
Proof. frame_tac. Qed.

Lemma Frame_trans b1 b2 b3 pre1 pre2 :
  Frame b1 b2 pre1 -> Frame b2 b3 pre2 -> Frame b1 b3 (pre1 ++ pre2).
Proof.
  unfold Frame, yieldTexts, callbackTexts, textChunks, callbackErrors.
  rewrite !flat_map_app, !length_app, !map_app.
  intros (F1 & A1 & T1 & E1 & P1 & H1) (F2 & A2 & T2 & E2 & P2 & H2).
  rewrite F2, F1, A2, A1, T2, T1, <- !app_assoc.
  split; [reflexivity|]. split; [reflexivity|]. split; [reflexivity|]. split; [lia|].
  split; [eapply prefix_trans; eauto|].
  destruct P1 as [r1 Er1], P2 as [r2 Er2].
  assert (L1 : length (errorMessages b1) <= length (errorMessages b2))
    by (rewrite Er1, length_app; lia).
  assert (L2 : length (errorMessages b2) <= length (errorMessages b3))
    by (rewrite Er2, length_app; lia).
  rewrite H2, H1. destruct (hadToolCallError b1); [split; auto|].
  split; [intros [[H|H]|H]; [discriminate|right; lia|right; lia]|].
  intros [H|H]; [discriminate|].
  destruct (Nat.lt_ge_cases (length (errorMessages b1)) (length (errorMessages b2)));
    [left; right|right]; lia.
Qed.

Lemma Frame_recordToolCall b t : Frame b (recordToolCall handler b t) [].
Proof. unfold recordToolCall, responseHandler, emit. frame_tac. Qed.

Lemma Frame_call b a : (exists n i, a = PStructured n i \/ a = PXml n i) -> Frame b b [a].
Proof. intros (n & i & [-> | ->]); frame_tac. Qed.

Lemma Frame_callError b a msg : (exists n i, a = PStructured n i \/ a = PXml n i) ->
  Frame b (responseHandler b (ChunkError msg)) [a].
Proof. intros (n & i & [-> | ->]); unfold responseHandler, emit, pushError; frame_tac. Qed.

Lemma Frame_parserCallback b a : isCallback a = true -> Frame b (parserCallback b a) [a].
Proof.
  destruct a as [text|message| | |]; simpl; try discriminate; intros _.
  - destruct (String.eqb text "") eqn:E; unfold emit, pushAssistant; frame_tac;
      rewrite E; simpl; rewrite ?app_nil_r; reflexivity.
  - unfold emit. frame_tac.
Qed.

Lemma Frame_loopBody b c : Frame b (loopBody b c) [PYield c].
Proof. destruct c; simpl; unfold emit, pushFullResponse, pushError; frame_tac. Qed.

Lemma Step_frame s s' : Step' s s' ->
  exists pre, script s = pre ++ script s' /\ Frame (buf s) (buf s') pre.
Proof.
  intro HS. destruct HS; simpl.
  - exists []. split; [reflexivity|apply Frame_refl].
  - exists []. split; [reflexivity|apply Frame_recordToolCall].
  - exists []. split; [reflexivity|apply Frame_refl].
  - exists []. split; [reflexivity|apply Frame_refl].
  - exists []. split; [reflexivity|apply Frame_refl].
  - exists []. split; [reflexivity|apply Frame_refl].
  - exists [a]. split; [now rewrite H0|]. now apply Frame_parserCallback.
  - exists [PYield c]. split; [now rewrite H0|]. apply Frame_loopBody.
  - destruct (onTagEnd' n i false (set_script s rest)) as [s1 r] eqn:Ho. simpl.
    apply onTagEnd_spec in Ho. simpl in Ho. exists [PStructured n i].
    destruct Ho as [(_ & -> & _)|(_ & _ & Hsc & _ & _ & _ & _ & _ & _ & _ & Hc)].
    + simpl. split; [now rewrite H0|]. apply Frame_call; eauto.
    + rewrite Hsc. split; [now rewrite H0|].
      destruct Hc as [(msg & _ & -> & _)|(_ & -> & _)];
        [apply Frame_callError|apply Frame_call]; eauto.
  - exists [PXml n i]. split; [now rewrite H0|]. apply Frame_call; eauto.
  - apply onTagEnd_spec in H2. simpl in H2. exists [PXml n i].
    destruct H2 as [(Ha & _ & _)|(_ & _ & Hsc & _ & _ & _ & _ & _ & _ & _ & Hc)];
      [congruence|].
    rewrite Hsc. split; [now rewrite H0|].
    destruct Hc as [(msg & _ & -> & _)|(_ & -> & _)];
      [apply Frame_callError|apply Frame_call]; eauto.
  - exists []. split; [reflexivity|apply Frame_refl].
  - exists []. split; [reflexivity|apply Frame_refl].
Qed.

Lemma run_frame cs (s0 s : State) : run' cs s0 = Some s ->
  exists pre, script s0 = pre ++ script s /\ Frame (buf s0) (buf s) pre.
Proof.
  revert s0. induction cs as [|c cs IH]; simpl; intros s0 Hrun.
  - injection Hrun as <-. exists []. split; [reflexivity|apply Frame_refl].
  - destruct (step' c s0) as [s1|] eqn:Hs; [|discriminate].
    destruct (Step_frame _ _ (step_Step _ _ _ Hs)) as (pre1 & E1 & F1).
    destruct (IH s1 Hrun) as (pre2 & E2 & F2).
    exists (pre1 ++ pre2). split.
    + rewrite E1, E2. apply app_assoc.
    + eapply Frame_trans; eauto.
Qed.

(** ** The history, progress and the inline-after-structured stall *)

Lemma Step_history s s' : Step' s s' -> pc s' <> Done ->
  messageHistory s' = messageHistory s.
Proof.
  intro HS. destruct HS; simpl; try reflexivity; try (intro H'; exfalso; apply H'; reflexivity).
  - destruct (onTagEnd' n i false (set_script s rest)) as [s1 r] eqn:Ho. simpl.
    apply onTagEnd_spec in Ho. simpl in Ho.
    destruct Ho as [(_ & -> & _)|(_ & _ & _ & _ & _ & Hh & _)]; [reflexivity|].
    intros _. exact Hh.
  - apply onTagEnd_spec in H2. simpl in H2.
    destruct H2 as [(Ha & _ & _)|(_ & _ & _ & _ & _ & Hh & _)]; [congruence|].
    intros _. exact Hh.
Qed.

Lemma run_from_done cs (s s' : State) : pc s = Done -> run' cs s = Some s' ->
  pc s' = Done /\ messageHistory s' = messageHistory s.
Proof.
  revert s. induction cs as [|c cs IH]; simpl; intros s Hd Hrun.
  - injection Hrun as <-. auto.
  - destruct (step' c s) as [s1|] eqn:Hs; [|discriminate].
    destruct (Step_grow _ _ (step_Step _ _ _ Hs)) as (_ & _ & _ & G4 & _).
    destruct (G4 Hd) as (Hd1 & Hh1 & _).
    destruct (IH s1 Hd1 Hrun) as (Hd' & Hh'). rewrite Hh', Hh1. auto.
Qed.

Lemma run_history cs (s s' : State) : run' cs s = Some s' -> pc s' <> Done ->
  messageHistory s' = messageHistory s.
Proof.
  revert s. induction cs as [|c cs IH]; simpl; intros s Hrun Hnd.
  - injection Hrun as <-. reflexivity.
  - destruct (step' c s) as [s1|] eqn:Hs; [|discriminate].
    assert (Hnd1 : pc s1 <> Done).
    { intro Hd. apply Hnd. exact (proj1 (run_from_done cs s1 s' Hd Hrun)). }
    rewrite (IH s1 Hrun Hnd). exact (Step_history _ _ (step_Step _ _ _ Hs) Hnd1).
Qed.

Lemma awaitXml_target h actions n0 s : reach' h actions n0 s ->
  forall p, pc s = AwaitXml p ->
  p = PResolved \/ exists j, p = PTool j /\ j < length (tasks (spine s)).
Proof.
  induction 1 as [|s s' Hr IH HS].
  - discriminate.
  - pose proof (reach_Inv _ _ _ _ Hr) as HI.
    destruct HS; simpl; intros p0 Hp0; try discriminate;
      try (rewrite H in Hp0; discriminate); try (apply IH; exact Hp0).
    + destruct (onTagEnd' n i false (set_script s rest)) as [s1 r] eqn:Ho.
      simpl in Hp0. apply onTagEnd_spec in Ho. simpl in Ho.
      destruct Ho as [(_ & -> & _)|(_ & _ & _ & Hpc & _)]; simpl in Hp0;
        [rewrite H in Hp0|rewrite Hpc, H in Hp0]; discriminate.
    + injection Hp0 as <-. apply onTagEnd_spec in H2. simpl in H2.
      destruct H2 as [(Ha & _ & _)|(_ & _ & _ & _ & _ & _ & _ & _ & _ & Hr' & Hc)];
        [congruence|].
      injection Hr' as ->.
      destruct Hc as [(msg & _ & _ & Ht & Hp)|(_ & _ & (n' & i' & Ht) & Hp)];
        rewrite Ht, Hp.
      * change (capturedPrevious true (set_script s rest)) with (capturedPrevious true s).
        destruct (capturedPrevious_cases true s (inv_prev _ _ _ HI))
          as [[_ [E|E]]|[Hne E]]; rewrite E; auto.
        -- unfold capturedPrevious in E. destruct (previousToolCallFinished (spine s));
             discriminate.
        -- right. exists (length (tasks (spine s)) - 1). split; [reflexivity|].
           destruct (tasks (spine s)); [congruence|simpl; lia].
      * right. eexists. split; [reflexivity|]. rewrite length_app. simpl. lia.
Qed.

(** The lowest unfinished execution can settle, unless it is the first one,
    chained on the stream-done promise, and the stream has not ended. *)
Lemma fire_lowest h n0 s j : Inv h n0 s ->
  j < length (tasks (spine s)) -> existsb (Nat.eqb j) (finished (spine s)) = false ->
  (exists s', step' (Fire (length (finished (spine s)))) s = Some s') \/
  (finished (spine s) = [] /\ exists t, nth_error (tasks (spine s)) 0 = Some t /\
     task_prev t = PStreamDone /\ streamDoneResolved (spine s) = false).
Proof.
  intros HI Hj Hf. pose proof HI as [].
  set (m := length (finished (spine s))) in *.
  rewrite inv_finished0 in Hf.
  assert (Hmj : m <= j).
  { destruct (Nat.lt_ge_cases j m) as [Hlt|]; [|assumption].
    apply existsb_seq in Hlt. fold m in Hlt. congruence. }
  destruct (nth_error (tasks (spine s)) m) as [t|] eqn:Ht;
    [|apply nth_error_None in Ht; lia].
  assert (Hnf : existsb (Nat.eqb m) (finished (spine s)) = false).
  { rewrite inv_finished0. fold m. destruct (existsb (Nat.eqb m) (seq 0 m)) eqn:E; auto.
    apply existsb_seq in E. lia. }
  pose proof (inv_chain0 m t Ht) as Hc.
  assert (Hfire : resolved s (task_prev t) = true ->
                  exists s', step' (Fire m) s = Some s').
  { intro Hr. simpl. unfold fire. rewrite Ht, Hnf, Hr. eauto. }
  destruct m as [|m'] eqn:Em.
  - destruct Hc as [Hp|Hp].
    + left. apply Hfire. rewrite Hp. reflexivity.
    + destruct (streamDoneResolved (spine s)) eqn:Hsd.
      * left. apply Hfire. rewrite Hp. simpl. exact Hsd.
      * right. split; [|exists t; auto].
        destruct (finished (spine s)); [reflexivity|simpl in Em; discriminate].
  - left. apply Hfire. rewrite Hc. simpl. rewrite inv_finished0.
    rewrite <- Em. apply existsb_seq. lia.
Qed.

(** The configuration in which a step can never end: an inline call awaits
    an execution of the chain rooted at the first execution, which waits for
    the stream-done promise. *)
Definition stalled (s : State) : Prop :=
  (exists j, pc s = AwaitXml (PTool j)) /\ streamDoneResolved (spine s) = false /\
  finished (spine s) = [] /\
  (forall t, nth_error (tasks (spine s)) 0 = Some t -> task_prev t = PStreamDone) /\
  (forall k t, nth_error (tasks (spine s)) (S k) = Some t -> task_prev t = PTool k).

Lemma stalled_step c s s' : stalled s -> step' c s = Some s' ->
  c = Abort /\ stalled s'.
Proof.
  intros (Hpc & Hsd & Hf & H0 & HS) Hs. destruct Hpc as [j Hpc].
  destruct c as [|k|]; simpl in Hs.
  - unfold mainStep in Hs. rewrite Hpc in Hs. simpl in Hs. rewrite Hf in Hs. discriminate.
  - unfold fire in Hs. destruct (nth_error (tasks (spine s)) k) as [t|] eqn:Ht;
      [|discriminate].
    rewrite Hf in Hs. simpl in Hs. destruct k as [|k].
    + rewrite (H0 t Ht) in Hs. simpl in Hs. rewrite Hsd in Hs. discriminate.
    + rewrite (HS k t Ht) in Hs. simpl in Hs. rewrite Hf in Hs. discriminate.
  - destruct (aborted s); [discriminate|]. injection Hs as <-.
    split; [reflexivity|]. repeat split; eauto.
Qed.

Lemma stalled_run cs s s' : stalled s -> run' cs s = Some s' -> stalled s'.
Proof.
  revert s. induction cs as [|c cs IH]; simpl; intros s Hst Hrun.
  - injection Hrun as <-. exact Hst.
  - destruct (step' c s) as [s1|] eqn:Hs; [|discriminate].
    exact (IH s1 (proj2 (stalled_step c s s1 Hst Hs)) Hrun).
Qed.

(** C1 (amended). A step that ends without abort waits until every started
    execution has settled, then rewrites [agentState.messageHistory] to the
    pre-stream snapshot followed by the assistant text messages, one assistant
    message per recorded tool call in dispatch order, the tool messages of the
    same calls in the same order, and the user error messages. In that suffix
    every tool message is preceded by the one tool-call part of its id
    (I-PAIR), and no tool message of the whole log is orphaned when none of
    the snapshot is (I-NO-ORPHAN). The tool messages form one block right
    after the block of tool-call messages; a tool message is not adjacent to
    its own tool-call message when several calls were recorded (see the
    counterexample). *)
Theorem processStream_commit h actions n0 cs s s' :
  run' cs (init h actions n0) = Some s -> mainStep' s = Some s' ->
  pc s' = Done -> aborted s = false ->
  (forall k, k < length (tasks (spine s)) -> In k (finished (spine s))) /\
  toolCallsToAddToMessageHistory (buf s) = map taskCall (recorded s) /\
  toolResultsToAddToMessageHistory (buf s) = map (taskResult handler) (recorded s) /\
  messageHistory s' =
    h ++ committed (assistantMessages (buf s)) (recorded s) (errorMessages (buf s)) /\
  Forall (fun m => exists text, m = assistantMessage text) (assistantMessages (buf s)) /\
  Forall (fun m => exists c, m = UserMsg c) (errorMessages (buf s)) /\
  NoDup (map task_id (recorded s)) /\
  pairedBefore (committed (assistantMessages (buf s)) (recorded s) (errorMessages (buf s))) /\
  pairedOnce (committed (assistantMessages (buf s)) (recorded s) (errorMessages (buf s))) /\
  (pairedBefore h -> pairedBefore (messageHistory s')).
Proof.
  intros Hrun Hs Hd Ha. pose proof (run_Inv _ _ _ _ _ Hrun) as HI. pose proof HI as [].
  destruct (mainStep_to_done s s' Hs Hd Ha) as (p & Hpc & Hr & ->).
  destruct (inv_awaitFinal0 p Hpc) as (-> & _ & _).
  assert (Hhist : messageHistory (finalize s) =
    h ++ committed (assistantMessages (buf s)) (recorded s) (errorMessages (buf s))).
  { simpl. unfold buildArray, committed. rewrite inv_snapshot0, inv_callsAdd0, inv_resultsAdd0.
    reflexivity. }
  pose proof (recorded_NoDup _ _ _ HI) as Hnd.
  repeat split; auto.
  - intros k Hk. rewrite inv_finished0. apply in_seq. split; [lia|]. simpl.
    destruct inv_prev0 as [[E _]|[Hne Hp]].
    + rewrite E in Hk. simpl in Hk. lia.
    + rewrite Hp in Hr. simpl in Hr. rewrite inv_finished0, existsb_seq in Hr. lia.
  - now apply committed_pairedBefore.
  - now apply committed_pairedOnce.
  - intro Hh. rewrite Hhist. apply pairedBefore_app; auto.
    now apply committed_pairedBefore.
Qed.

(** C2. Within a step the executions are chained in dispatch order: the
    [k+1]-th started execution first awaits the promise of the [k]-th (the
    first awaits an already resolved promise or [streamDonePromise]),
    [previousToolCallFinished] is the promise of the last started execution,
    executions settle in dispatch order, [toolCalls] and [toolResults] hold
    the settled executions in dispatch order, and the [tool_call] and
    [tool_result] events come in pairs in the same order. *)
Theorem processStream_serialized h actions n0 cs s :
  run' cs (init h actions n0) = Some s ->
  (forall k t, nth_error (tasks (spine s)) (S k) = Some t -> task_prev t = PTool k) /\
  (forall t, nth_error (tasks (spine s)) 0 = Some t ->
     task_prev t = PResolved \/ task_prev t = PStreamDone) /\
  (tasks (spine s) <> [] ->
     previousToolCallFinished (spine s) = PTool (length (tasks (spine s)) - 1)) /\
  finished (spine s) = seq 0 (length (finished (spine s))) /\
  length (finished (spine s)) <= length (tasks (spine s)) /\
  toolCalls (buf s) = map taskCall (recorded s) /\
  toolResults (buf s) = map (taskResult handler) (recorded s) /\
  filter isToolChunk (emitted (buf s)) = flat_map (taskChunks handler) (recorded s).
Proof.
  intro Hrun. pose proof (run_Inv _ _ _ _ _ Hrun) as [].
  repeat split; auto.
  - intros k t Hk. exact (inv_chain0 (S k) t Hk).
  - intros t Hk. exact (inv_chain0 0 t Hk).
  - intro Hne. destruct inv_prev0 as [[E _]|[_ Hp]]; [contradiction|exact Hp].
Qed.

(** C3: a call whose input fails validation (or whose name is neither a tool
    nor a spawnable agent) is dispatched by emitting exactly one [error]
    chunk, setting [hadToolCallError] and queueing the user message
    "Error during tool call: <msg>. Please check the tool name and arguments
    and try again."; it is given no task. In every continuation no
    [tool_call] or [tool_result] chunk and no recorded tool call carries the
    id it would have had, and a committed history has no assistant tool-call
    part and no tool message with that id, the error message sitting in the
    user-error block that follows every tool result. *)
Theorem invalid_call_recorded_nowhere h actions n0 cs s (x : bool) (name : string)
  (input : Input) rest msg :
  run' cs (init h actions n0) = Some s -> pc s = InNext -> aborted s = false ->
  script s = (if x then PXml name input else PStructured name input) :: rest ->
  callValidation' name input = Some msg ->
  exists s1, mainStep' s = Some s1 /\
    emitted (buf s1) = emitted (buf s) ++ [ChunkError msg] /\
    hadToolCallError (buf s1) = true /\
    errorMessages (buf s1) =
      errorMessages (buf s) ++ [userMessage (withSystemTags (errorText msg))] /\
    toolCallsToAddToMessageHistory (buf s1) = toolCallsToAddToMessageHistory (buf s) /\
    toolResultsToAddToMessageHistory (buf s1) = toolResultsToAddToMessageHistory (buf s) /\
    tasks (spine s1) = tasks (spine s) /\
    forall cs' s2, run' cs' s1 = Some s2 ->
      (forall c, In c (emitted (buf s2)) -> chunkToolId c <> Some (nextId (spine s))) /\
      (forall tc, In tc (toolCallsToAddToMessageHistory (buf s2)) ->
         tc_id tc <> nextId (spine s)) /\
      (pc s2 = Done -> exists A ts E,
         messageHistory s2 = h ++ committed A ts E /\
         In (userMessage (withSystemTags (errorText msg))) E /\
         forall m, In m (committed A ts E) ->
           ~ In (nextId (spine s)) (toolCallIds m) /\
           forall n o, m <> ToolMsg (nextId (spine s)) n o).
Proof.
  intros Hrun Hpc Ha Hsc Hv.
  destruct (dispatch_invalid s x name input rest msg Hpc Ha Hsc Hv)
    as (s1 & Hm & Hb & Ht & Hn & Hpc1).
  exists s1. split; [exact Hm|]. rewrite Hb. simpl.
  do 5 (split; [reflexivity|]). split; [exact Ht|].
  intros cs' s2 Hrun2.
  pose proof (run_init_reach _ _ _ _ _ Hrun) as Hr0.
  pose proof (reach_Inv _ _ _ _ Hr0) as HI0. pose proof HI0 as [].
  assert (Hr1 : reach' h actions n0 s1).
  { eapply reach_step; [exact Hr0|]. apply (step_Step Main). exact Hm. }
  set (errMsg := @userMessage Input Output (withSystemTags (errorText msg))).
  assert (Ha1 : afterInvalid h (nextId (spine s)) errMsg s1).
  { split; [|split].
    - intros t Hin. rewrite Ht in Hin. destruct (In_nth_error _ _ Hin) as [k Hk].
      destruct (inv_ids0 k t Hk). lia.
    - lia.
    - left. split; auto. rewrite Hb. simpl. apply in_or_app. right. now left. }
  destruct (afterInvalid_run h actions n0 (nextId (spine s)) errMsg cs' s1 s2 Hr1 Ha1 Hrun2)
    as (Hr2 & Hids2 & _ & Hcase).
  pose proof (reach_Inv _ _ _ _ Hr2) as HI2. clear - HI2 Hids2 Hcase.
  destruct HI2.
  split; [|split].
  - intros c Hc Hid.
    assert (Hf : In c (filter isToolChunk (emitted (buf s2)))).
    { apply filter_In. split; auto. destruct c; simpl in Hid; try discriminate; reflexivity. }
    rewrite inv_chunks0 in Hf. apply in_flat_map in Hf as (t & Htr & Hct).
    apply (Hids2 t (In_firstn _ _ _ Htr)).
    simpl in Hct. destruct Hct as [<-|[<-|[]]]; simpl in Hid; congruence.
  - intros tc Htc. rewrite inv_callsAdd0 in Htc. apply in_map_iff in Htc as (t & <- & Htr).
    exact (Hids2 t (In_firstn _ _ _ Htr)).
  - intro Hd. destruct Hcase as [[Hpc2 _]|(_ & A & ts & E & Hh & Hts & Hin & HA & HE)];
      [contradiction|].
    exists A, ts, E. split; [|split]; auto.
    intros m Hm. apply (committed_no_id A ts E); auto.
    intro Hid. apply in_map_iff in Hid as (t & Htid & Htt).
    exact (Hids2 t (Hts t Htt) Htid).
Qed.

(** C6 (amended): once the abort signal has fired, [onTagEnd] returns at
    its abort check leaving the state unchanged (no id taken, no executor
    run), the parser moves past any further call without dispatching it,
    the loop exits at its next check (at its top, or at the end of the
    parser's run) and rebuilds the history from the snapshot with the tool
    calls and results recorded at that point; no task is ever added after
    the abort, but handlers already in flight may still settle and be
    recorded before the loop exits. *)
Theorem abort_stops_dispatch h actions n0 cs s :
  run' cs (init h actions n0) = Some s -> aborted s = true ->
  (forall name input x, onTagEnd' name input x s = (s, None)) /\
  (forall (x : bool) (name : string) (input : Input) rest, pc s = InNext ->
     script s = (if x then PXml name input else PStructured name input) :: rest ->
     mainStep' s = Some (set_script s rest)) /\
  (pc s = LoopTop -> mainStep' s = Some (finalize s)) /\
  (pc s = InNext -> script s = [] -> mainStep' s = Some (finalize s)) /\
  messageHistory (finalize s) =
    h ++ committed (assistantMessages (buf s)) (recorded s) (errorMessages (buf s)) /\
  (forall cs' s', run' cs' s = Some s' ->
     aborted s' = true /\ tasks (spine s') = tasks (spine s) /\
     nextId (spine s') = nextId (spine s)).
Proof.
  intros Hrun Ha. pose proof (run_Inv _ _ _ _ _ Hrun) as [].
  split; [|split; [|split; [|split; [|split]]]].
  - intros name input x. unfold onTagEnd. rewrite Ha. reflexivity.
  - intros x name input rest Hpc Hsc. unfold mainStep. rewrite Hpc, Hsc.
    destruct x; simpl; [rewrite Ha; reflexivity|].
    unfold onTagEnd. simpl. rewrite Ha. reflexivity.
  - intro Hpc. unfold mainStep. rewrite Hpc, Ha. reflexivity.
  - intros Hpc Hsc. unfold mainStep. rewrite Hpc, Hsc, Ha. reflexivity.
  - simpl. unfold buildArray, committed.
    rewrite inv_snapshot0, inv_callsAdd0, inv_resultsAdd0. reflexivity.
  - intros cs' s' Hrun'. exact (aborted_run cs' s s' Ha Hrun').
Qed.

(** C7: a valid inline call leaves the parser awaiting the promise of its
    own execution, which resolves only once that execution has recorded
    its result; a pending await blocks the parser; a structured call is not
    awaited; and whenever a move emits a chunk other than a tool chunk
    (text following the closing tag among them) the [tool_result] chunk of
    every inline call dispatched so far has already been emitted. *)
Theorem inline_call_awaited h actions n0 cs s :
  run' cs (init h actions n0) = Some s ->
  (forall (name : string) (input : Input) rest, pc s = InNext -> aborted s = false ->
     script s = PXml name input :: rest -> callValidation' name input = None ->
     exists s1 t, mainStep' s = Some s1 /\
       pc s1 = AwaitXml (PTool (length (tasks (spine s)))) /\
       tasks (spine s1) = tasks (spine s) ++ [t] /\ task_xml t = true /\ script s1 = rest) /\
  (forall p, pc s = AwaitXml p -> resolved s p = false -> mainStep' s = None) /\
  (forall (name : string) (input : Input) rest s1, pc s = InNext ->
     script s = PStructured name input :: rest ->
     mainStep' s = Some s1 -> pc s1 = InNext /\ script s1 = rest) /\
  (forall c s' l ch, step' c s = Some s' -> emitted (buf s') = emitted (buf s) ++ l ->
     In ch l -> isToolChunk ch = false ->
     forall t, In t (tasks (spine s)) -> task_xml t = true ->
       In (ChunkToolResult (task_id t) (handler (task_name t) (task_input t)))
          (emitted (buf s))).
Proof.
  intros Hrun. pose proof (run_Inv _ _ _ _ _ Hrun) as HI.
  split; [|split; [|split]].
  - intros name input rest Hpc Ha Hsc Hv. unfold mainStep. rewrite Hpc, Hsc. simpl.
    rewrite Ha.
    destruct (onTagEnd' name input true (set_script s rest)) as [s1 r] eqn:Ho.
    apply onTagEnd_spec in Ho. simpl in Ho.
    destruct Ho as [(Ha' & _)|(_ & _ & Hsc1 & Hpc1 & _ & _ & _ & _ & _ & Hr & Hc)];
      [congruence|].
    destruct Hc as [(msg & Hv' & _)|(_ & _ & (n' & i' & Ht) & Hp)]; [congruence|].
    rewrite Hr. eexists _, _. split; [reflexivity|]. simpl.
    rewrite Hp. split; [reflexivity|]. split; [exact Ht|]. split; [reflexivity|].
    exact Hsc1.
  - intros p Hpc Hres. unfold mainStep. rewrite Hpc, Hres. reflexivity.
  - intros name input rest s1 Hpc Hsc. unfold mainStep. rewrite Hpc, Hsc.
    intro H. injection H as <-.
    destruct (onTagEnd' name input false (set_script s rest)) as [s1 r] eqn:Ho.
    simpl. apply onTagEnd_spec in Ho. simpl in Ho.
    destruct Ho as [(_ & -> & _)|(_ & _ & Hsc1 & Hpc1 & _)]; simpl; auto.
    rewrite Hsc1, Hpc1. auto.
  - intros c s' l ch Hs Hem Hin Hnt t Ht Hx.
    destruct (Step_emitted _ _ (step_Step _ _ _ Hs)) as [Hpc|(l' & Hem' & Hall)].
    + destruct HI. destruct (In_nth_error _ _ Ht) as [k Hk].
      pose proof (inv_loop0 (or_intror Hpc) k t Hk Hx) as Hlt.
      assert (Hc : In (ChunkToolResult (task_id t) (handler (task_name t) (task_input t)))
                     (flat_map (taskChunks handler) (recorded s))).
      { apply in_flat_map. exists t. split.
        - exact (nth_error_In_firstn _ _ _ _ Hlt Hk).
        - simpl. right. now left. }
      rewrite <- inv_chunks0 in Hc. apply filter_In in Hc. tauto.
    + rewrite Hem in Hem'. apply app_inv_head in Hem'. subst l'.
      rewrite Forall_forall in Hall. rewrite (Hall ch Hin) in Hnt. discriminate.
Qed.

(** C9: while no call has been dispatched [previousToolCallFinished] is
    still the stream-done promise; dispatch then chains an inline call on an
    already resolved promise and a structured one on the stream-done
    promise. So the first execution of a step (the one with the first id),
    when inline, may run at once, and when structured, can run only once
    the stream has ended (the parser's script is exhausted and the step is
    at its final await or done). *)
Theorem first_call_chaining h actions n0 cs s :
  run' cs (init h actions n0) = Some s ->
  (nextId (spine s) = n0 -> previousToolCallFinished (spine s) = PStreamDone) /\
  (previousToolCallFinished (spine s) = PStreamDone ->
     capturedPrevious true s = PResolved /\ capturedPrevious false s = PStreamDone) /\
  (forall t, In t (tasks (spine s)) -> task_id t = n0 ->
     (task_xml t = true -> task_prev t = PResolved /\ resolved s (task_prev t) = true) /\
     (task_xml t = false -> task_prev t = PStreamDone /\
        (resolved s (task_prev t) = true ->
           streamDoneResolved (spine s) = true /\ script s = [] /\
           ((exists p, pc s = AwaitFinal p) \/ pc s = Done)))).
Proof.
  intros Hrun. pose proof (run_Inv _ _ _ _ _ Hrun) as [].
  split; [|split].
  - intro Hn. exact (proj1 (inv_fresh0 Hn)).
  - intro Hp. unfold capturedPrevious. rewrite Hp. auto.
  - intros t Ht Hid. destruct (In_nth_error _ _ Ht) as [k Hk].
    pose proof (inv_first_task0 k t Hk Hid) as Hprev.
    split; intro Hx; rewrite Hx in Hprev; rewrite Hprev; simpl; auto.
Qed.

(** The returned [fullResponse] is the one the step started with followed by
    the texts of the text chunks the parser yielded, in stream order. *)
Theorem processStream_fullResponse cs (s0 s : State) :
  run' cs s0 = Some s ->
  exists pre, script s0 = pre ++ script s /\
    fullResponseChunks (buf s) = fullResponseChunks (buf s0) ++ yieldTexts pre /\
    fullResponse (buf s) = (fullResponse (buf s0) ++ String.concat "" (yieldTexts pre))%string.
Proof.
  intro Hrun. destruct (run_frame cs s0 s Hrun) as (pre & Hsc & F & _).
  exists pre. split; [exact Hsc|]. split; [exact F|].
  unfold fullResponse. rewrite F. apply concat_empty_app.
Qed.

(** The assistant text messages are the non-empty texts the parser passed
    to [onResponseChunk], one message each, in stream order. *)
Theorem processStream_assistantMessages cs (s0 s : State) :
  run' cs s0 = Some s ->
  exists pre, script s0 = pre ++ script s /\
    assistantMessages (buf s) =
      assistantMessages (buf s0) ++ map assistantMessage (callbackTexts pre).
Proof.
  intro Hrun. destruct (run_frame cs s0 s Hrun) as (pre & Hsc & _ & A & _).
  exists pre. auto.
Qed.

(** The text-like events given to [onResponseChunk] (parser text, yielded
    text, reasoning) are exactly those of the consumed stream, in stream
    order; tool events and errors never come in between as text. *)
Theorem processStream_text_events cs (s0 s : State) :
  run' cs s0 = Some s ->
  exists pre, script s0 = pre ++ script s /\
    filter isTextChunk (emitted (buf s)) = filter isTextChunk (emitted (buf s0)) ++ textChunks pre.
Proof.
  intro Hrun. destruct (run_frame cs s0 s Hrun) as (pre & Hsc & _ & _ & T & _).
  exists pre. auto.
Qed.

(** Every user error message comes with one [error] event; the only other
    [error] events are the errors the parser reports through
    [onResponseChunk], which add no user message. *)
Theorem processStream_error_events cs (s0 s : State) :
  run' cs s0 = Some s ->
  exists pre, script s0 = pre ++ script s /\
    length (filter isErrorChunk (emitted (buf s))) + length (errorMessages (buf s0)) =
      length (filter isErrorChunk (emitted (buf s0))) + length (errorMessages (buf s))
      + callbackErrors pre.
Proof.
  intro Hrun. destruct (run_frame cs s0 s Hrun) as (pre & Hsc & _ & _ & _ & E & _).
  exists pre. auto.
Qed.

(** [hadToolCallError] is raised exactly when a user error message is
    added; error messages are only ever appended. *)
Theorem processStream_hadToolCallError cs (s0 s : State) :
  run' cs s0 = Some s ->
  prefix (errorMessages (buf s0)) (errorMessages (buf s)) /\
  (hadToolCallError (buf s) = true <->
     hadToolCallError (buf s0) = true \/
     length (errorMessages (buf s0)) < length (errorMessages (buf s))).
Proof.
  intro Hrun. destruct (run_frame cs s0 s Hrun) as (pre & _ & _ & _ & _ & _ & P & H).
  auto.
Qed.

(** [agentState.messageHistory] is assigned once: until the final rebuild
    it is the history the step started with, and afterwards nothing changes
    it, not even executions that settle after processStream returned. *)
Theorem processStream_history_written_once h actions n0 cs s :
  run' cs (init h actions n0) = Some s ->
  (pc s <> Done -> messageHistory s = h) /\
  (forall cs' s', pc s = Done -> run' cs' s = Some s' ->
     pc s' = Done /\ messageHistory s' = messageHistory s).
Proof.
  intro Hrun. split.
  - intro Hnd. exact (run_history cs _ s Hrun Hnd).
  - intros cs' s' Hd Hrun'. exact (run_from_done cs' s s' Hd Hrun').
Qed.

(** A step that has not returned can always move on (its own code or the
    settling of an execution), except in one configuration: an inline call
    is awaited while no execution has settled, the first execution waits
    for the stream-done promise and the stream has not ended. *)
Theorem processStream_progress h actions n0 cs s :
  run' cs (init h actions n0) = Some s -> pc s <> Done ->
  (exists s', mainStep' s = Some s') \/
  (exists k s', step' (Fire k) s = Some s') \/
  ((exists p, pc s = AwaitXml p) /\ finished (spine s) = [] /\
   streamDoneResolved (spine s) = false /\
   exists t, nth_error (tasks (spine s)) 0 = Some t /\ task_prev t = PStreamDone).
Proof.
  intros Hrun Hnd. pose proof (run_init_reach _ _ _ _ _ Hrun) as Hr.
  pose proof (reach_Inv _ _ _ _ Hr) as HI.
  destruct (pc s) eqn:Hpc.
  - left. unfold mainStep. rewrite Hpc. destruct (aborted s); eauto.
  - left. unfold mainStep. rewrite Hpc.
    destruct (script s) as [|a rest]; [destruct (aborted s); eauto|].
    destruct a as [| | | |n i]; eauto. simpl. destruct (aborted s); eauto.
    destruct (onTagEnd' n i true (set_script s rest)) as [s1 [q|]]; eauto.
  - destruct (resolved s p) eqn:Hres.
    { left. unfold mainStep. rewrite Hpc, Hres. eauto. }
    destruct (awaitXml_target _ _ _ _ Hr p Hpc) as [->|(j & -> & Hj)]; [discriminate|].
    destruct (fire_lowest _ _ _ j HI Hj Hres) as [[s' Hf]|(Hf & t & Ht & Hp & Hsd)].
    + right. left. eauto.
    + right. right. eauto 10.
  - pose proof HI as []. destruct (inv_awaitFinal0 p Hpc) as (-> & Hsd & _).
    destruct (resolved s (previousToolCallFinished (spine s))) eqn:Hres.
    { left. unfold mainStep. rewrite Hpc, Hres. eauto. }
    destruct inv_prev0 as [[_ [E|E]]|[Hne E]]; rewrite E in Hres; simpl in Hres;
      [discriminate|rewrite Hsd in Hres; discriminate|].
    assert (Hj : length (tasks (spine s)) - 1 < length (tasks (spine s)))
      by (destruct (tasks (spine s)); [congruence|simpl; lia]).
    destruct (fire_lowest _ _ _ _ HI Hj Hres) as [[s' Hf]|(_ & t & _ & _ & Hsd')].
    + right. left. eauto.
    + congruence.
  - contradiction.
Qed.


End Facts.
Import StreamDemo.
Local Open Scope string_scope.

Lemma processStream_commit_witness :
  demoRun twoCallsChoices (demoInit twoCalls) = Some twoCallsSettled /\
  demoMainStep twoCallsSettled = Some twoCallsDone /\
  pc twoCallsDone = Done /\ aborted twoCallsSettled = false /\
  pairedOnce (committed demoHandler (assistantMessages (buf twoCallsSettled))
                (recorded twoCallsSettled) (errorMessages (buf twoCallsSettled))).
Proof.
  assert (H1 : demoRun twoCallsChoices (demoInit twoCalls) = Some twoCallsSettled)
    by (vm_compute; reflexivity).
  assert (H2 : demoMainStep twoCallsSettled = Some twoCallsDone) by (vm_compute; reflexivity).
  assert (H3 : pc twoCallsDone = Done) by reflexivity.
  assert (H4 : aborted twoCallsSettled = false) by reflexivity.
  split; [exact H1|]. split; [exact H2|]. split; [exact H3|]. split; [exact H4|].
  destruct (processStream_commit demoToolNames demoSpawnable demoValidate demoValidateCustom
              demoSpawnInput demoHandler [] twoCalls 100 twoCallsChoices
              twoCallsSettled twoCallsDone H1 H2 H3 H4)
    as (_ & _ & _ & _ & _ & _ & _ & _ & Ho & _).
  exact Ho.
Defined.

(** C1, counterexample to I-ADJACENT: with two recorded structured calls the
    committed log is [text; call 100; call 101; result 100; result 101], and
    the result of call 100 is separated from its tool-call message by the
    tool-call message of call 101. *)
Lemma commit_not_adjacent :
  demoRun (twoCallsChoices ++ [Main]) (demoInit twoCalls) = Some twoCallsDone /\
  aborted twoCallsDone = false /\ pc twoCallsDone = Done /\
  messageHistory twoCallsDone =
    [AssistantMsg [TextPart "ok"%string];
     AssistantMsg [ToolCallPart 100 "read_files"%string "a.ts"%string];
     AssistantMsg [ToolCallPart 101 "read_files"%string "b.ts"%string];
     ToolMsg 100 "read_files"%string "read_files(a.ts)"%string;
     ToolMsg 101 "read_files"%string "read_files(b.ts)"%string] /\
  ~ adjacent (messageHistory twoCallsDone).
Proof.
  split; [vm_compute; reflexivity|]. split; [reflexivity|]. split; [reflexivity|].
  split; [vm_compute; reflexivity|].
  intro Had. destruct (Had 3 100 _ _ eq_refl) as (j & m & Hj & Hm & Hin & Hbetween).
  unfold twoCallsDone in Hm.
  destruct j as [|[|[|j]]]; [| | | lia]; simpl in Hm; injection Hm as <-; simpl in Hin.
  - exact Hin.
  - specialize (Hbetween 2 _ ltac:(lia) eq_refl). discriminate.
  - destruct Hin as [E|[]]. discriminate.
Qed.


Lemma processStream_serialized_witness :
  demoRun twoCallsChoices (demoInit twoCalls) = Some twoCallsSettled /\
  toolResultsToAddToMessageHistory (buf twoCallsSettled) =
    map (taskResult demoHandler) (recorded twoCallsSettled) /\
  map task_prev (tasks (spine twoCallsSettled)) = [PStreamDone; PTool 0].
Proof.
  assert (H1 : demoRun twoCallsChoices (demoInit twoCalls) = Some twoCallsSettled)
    by (vm_compute; reflexivity).
  split; [exact H1|].
  destruct (processStream_serialized demoToolNames demoSpawnable demoValidate
              demoValidateCustom demoSpawnInput demoHandler [] twoCalls 100
              twoCallsChoices twoCallsSettled H1)
    as (_ & _ & _ & _ & _ & _ & Hr & _).
  split; [exact Hr|reflexivity].
Defined.

Lemma invalid_call_recorded_nowhere_witness :
  demoRun [Main] (demoInit badCall) = Some badCallAt /\ pc badCallAt = InNext /\
  aborted badCallAt = false /\
  script badCallAt = [PStructured "read_files" ""; PStructured "read_files" "b.ts"] /\
  callValidation demoToolNames demoSpawnable demoValidate demoValidateCustom demoSpawnInput
    "read_files" "" = Some "Invalid parameters for read_files" /\
  exists s1, demoMainStep badCallAt = Some s1 /\ hadToolCallError (buf s1) = true /\
    emitted (buf s1) = [ChunkError "Invalid parameters for read_files"].
Proof.
  assert (H1 : demoRun [Main] (demoInit badCall) = Some badCallAt)
    by (vm_compute; reflexivity).
  assert (H2 : pc badCallAt = InNext) by reflexivity.
  assert (H3 : aborted badCallAt = false) by reflexivity.
  assert (H4 : script badCallAt =
    (if false then PXml "read_files" "" else PStructured "read_files" "")
      :: [PStructured "read_files" "b.ts"]) by reflexivity.
  assert (H5 : callValidation demoToolNames demoSpawnable demoValidate demoValidateCustom
    demoSpawnInput "read_files" "" = Some "Invalid parameters for read_files")
    by reflexivity.
  split; [exact H1|]. split; [exact H2|]. split; [exact H3|]. split; [exact H4|].
  split; [exact H5|].
  destruct (invalid_call_recorded_nowhere demoToolNames demoSpawnable demoValidate
              demoValidateCustom demoSpawnInput demoHandler [] badCall 100 [Main]
              badCallAt false "read_files" "" [PStructured "read_files" "b.ts"]
              "Invalid parameters for read_files" H1 H2 H3 H4 H5)
    as (s1 & Hm & He & Hh & _).
  exists s1. split; [exact Hm|]. split; [exact Hh|]. rewrite He. reflexivity.
Defined.

Lemma abort_stops_dispatch_witness :
  demoRun [Main; Abort] (demoInit [PStructured "read_files" "a.ts"]) = Some abortEarly /\
  aborted abortEarly = true /\
  demoMainStep abortEarly = Some (set_script abortEarly []) /\
  tasks (spine (set_script abortEarly [])) = [].
Proof.
  assert (H1 : demoRun [Main; Abort] (demoInit [PStructured "read_files" "a.ts"])
                 = Some abortEarly) by (vm_compute; reflexivity).
  assert (H2 : aborted abortEarly = true) by reflexivity.
  split; [exact H1|]. split; [exact H2|].
  destruct (abort_stops_dispatch demoToolNames demoSpawnable demoValidate
              demoValidateCustom demoSpawnInput demoHandler []
              [PStructured "read_files" "a.ts"] 100 [Main; Abort] abortEarly H1 H2)
    as (_ & Hd & _).
  split; [|reflexivity].
  exact (Hd false "read_files" "a.ts" [] eq_refl eq_refl).
Defined.

(** C6, counterexample to "exactly the tool calls and results recorded
    before the abort": when the signal fires nothing is recorded yet, the
    inline call's handler then settles, the parser yields once more and the
    loop exits at its next check; the committed history holds the call and
    its result all the same. *)
Lemma abort_commits_late_result :
  demoRun [Main; Main] (demoInit abortLate) = Some abortLateBefore /\
  aborted abortLateBefore = false /\ pc abortLateBefore = AwaitXml (PTool 0) /\
  toolCallsToAddToMessageHistory (buf abortLateBefore) = [] /\
  toolResultsToAddToMessageHistory (buf abortLateBefore) = [] /\
  demoRun [Abort; Fire 0; Main; Main; Main] abortLateBefore = Some abortLateDone /\
  aborted abortLateDone = true /\ pc abortLateDone = Done /\
  messageHistory abortLateDone =
    [AssistantMsg [ToolCallPart 100 "read_files" "a.ts"];
     ToolMsg 100 "read_files" "read_files(a.ts)"].
Proof.
  split; [vm_compute; reflexivity|].
  repeat split; vm_compute; reflexivity.
Qed.

Lemma inline_call_awaited_witness :
  demoRun [Main] (demoInit abortLate) = Some xmlAt /\
  exists s1, demoMainStep xmlAt = Some s1 /\ pc s1 = AwaitXml (PTool 0) /\
    demoMainStep s1 = None.
Proof.
  assert (H1 : demoRun [Main] (demoInit abortLate) = Some xmlAt)
    by (vm_compute; reflexivity).
  split; [exact H1|].
  destruct (inline_call_awaited demoToolNames demoSpawnable demoValidate
              demoValidateCustom demoSpawnInput demoHandler [] abortLate 100 [Main]
              xmlAt H1) as (Hx & _).
  destruct (Hx "read_files" "a.ts" [PYield (YText "after")] eq_refl eq_refl eq_refl
              eq_refl) as (s1 & t & Hm & Hp & _).
  exists s1. split; [exact Hm|]. split; [exact Hp|].
  rewrite Hm in *. injection Hm as <-. vm_compute. reflexivity.
Defined.

Lemma first_call_chaining_witness :
  demoRun [Main; Main] (demoInit abortLate) = Some abortLateBefore /\
  exists t, tasks (spine abortLateBefore) = [t] /\ task_xml t = true /\
    task_prev t = PResolved /\ resolved abortLateBefore (task_prev t) = true.
Proof.
  assert (H1 : demoRun [Main; Main] (demoInit abortLate) = Some abortLateBefore)
    by (vm_compute; reflexivity).
  split; [exact H1|].
  destruct (first_call_chaining demoToolNames demoSpawnable demoValidate
              demoValidateCustom demoSpawnInput demoHandler [] abortLate 100 [Main; Main]
              abortLateBefore H1) as (_ & _ & Ht).
  destruct (Ht (nth 0 (tasks (spine abortLateBefore)) (Build_Task 0 "" "" false PResolved))
              (or_introl eq_refl) eq_refl) as [Hx _].
  destruct (Hx eq_refl) as [Hp Hr].
  exists (nth 0 (tasks (spine abortLateBefore)) (Build_Task 0 "" "" false PResolved)).
  split; [reflexivity|]. split; [reflexivity|]. split; [exact Hp|exact Hr].
Defined.


Lemma processStream_fullResponse_witness :
  demoRun (repeat Main 12) textStart = Some textEnd /\
  fullResponse (buf textEnd) = "So: Hello".
Proof.
  assert (H1 : demoRun (repeat Main 12) textStart = Some textEnd) by (vm_compute; reflexivity).
  split; [exact H1|].
  destruct (processStream_fullResponse demoToolNames demoSpawnable demoValidate
              demoValidateCustom demoSpawnInput demoHandler _ _ _ H1) as (pre & Hsc & _ & Hf).
  change (script textEnd) with (@nil (ParserAction string)) in Hsc.
  rewrite app_nil_r in Hsc. rewrite Hf, <- Hsc. vm_compute. reflexivity.
Defined.

Lemma processStream_assistantMessages_witness :
  demoRun (repeat Main 12) textStart = Some textEnd /\
  assistantMessages (buf textEnd) = [assistantMessage "Hi"].
Proof.
  assert (H1 : demoRun (repeat Main 12) textStart = Some textEnd) by (vm_compute; reflexivity).
  split; [exact H1|].
  destruct (processStream_assistantMessages demoToolNames demoSpawnable demoValidate
              demoValidateCustom demoSpawnInput demoHandler _ _ _ H1) as (pre & Hsc & Ha).
  change (script textEnd) with (@nil (ParserAction string)) in Hsc.
  rewrite app_nil_r in Hsc. rewrite Ha, <- Hsc. vm_compute. reflexivity.
Defined.

Lemma processStream_text_events_witness :
  demoRun (repeat Main 12) textStart = Some textEnd /\
  filter isTextChunk (emitted (buf textEnd)) =
    [ChunkText "Hi"; ChunkText ""; ChunkString "Hel"; ChunkReasoning "hmm"; ChunkString "lo"].
Proof.
  assert (H1 : demoRun (repeat Main 12) textStart = Some textEnd) by (vm_compute; reflexivity).
  split; [exact H1|].
  destruct (processStream_text_events demoToolNames demoSpawnable demoValidate
              demoValidateCustom demoSpawnInput demoHandler _ _ _ H1) as (pre & Hsc & Ht).
  change (script textEnd) with (@nil (ParserAction string)) in Hsc.
  rewrite app_nil_r in Hsc. rewrite Ht, <- Hsc. vm_compute. reflexivity.
Defined.

Lemma processStream_error_events_witness :
  demoRun (repeat Main 12) textStart = Some textEnd /\
  length (filter isErrorChunk (emitted (buf textEnd))) =
    length (errorMessages (buf textEnd)) + 1.
Proof.
  assert (H1 : demoRun (repeat Main 12) textStart = Some textEnd) by (vm_compute; reflexivity).
  split; [exact H1|].
  destruct (processStream_error_events demoToolNames demoSpawnable demoValidate
              demoValidateCustom demoSpawnInput demoHandler _ _ _ H1) as (pre & Hsc & He).
  change (script textEnd) with (@nil (ParserAction string)) in Hsc.
  rewrite app_nil_r in Hsc. rewrite <- Hsc in He. vm_compute in He. vm_compute. lia.
Defined.

Lemma processStream_hadToolCallError_witness :
  demoRun (repeat Main 12) textStart = Some textEnd /\ hadToolCallError (buf textEnd) = true.
Proof.
  assert (H1 : demoRun (repeat Main 12) textStart = Some textEnd) by (vm_compute; reflexivity).
  split; [exact H1|].
  destruct (processStream_hadToolCallError demoToolNames demoSpawnable demoValidate
              demoValidateCustom demoSpawnInput demoHandler _ _ _ H1) as (_ & Hh).
  apply Hh. right. vm_compute. lia.
Defined.

Lemma processStream_history_written_once_witness :
  demoRun [Main; Main; Fire 0; Main; Main; Abort; Main] (demoInit lateRun) = Some lateDone /\
  pc lateDone = Done /\
  exists s', demoRun [Fire 1] lateDone = Some s' /\
    messageHistory s' = messageHistory lateDone /\
    In (ToolMsg 101 "read_files" "read_files(b.ts)") (toolResults (buf s')) /\
    ~ In (ToolMsg 101 "read_files" "read_files(b.ts)") (messageHistory s').
Proof.
  assert (H1 : demoRun [Main; Main; Fire 0; Main; Main; Abort; Main] (demoInit lateRun)
                 = Some lateDone) by (vm_compute; reflexivity).
  assert (H2 : pc lateDone = Done) by reflexivity.
  split; [exact H1|]. split; [exact H2|].
  destruct (processStream_history_written_once demoToolNames demoSpawnable demoValidate
              demoValidateCustom demoSpawnInput demoHandler [] lateRun 100 _ _ H1)
    as (_ & Hd).
  destruct (demoRun [Fire 1] lateDone) as [s'|] eqn:Hs; [|discriminate Hs].
  exists s'. split; [reflexivity|].
  destruct (Hd [Fire 1] s' H2 Hs) as (_ & Hh). split; [exact Hh|].
  injection Hs as <-. split; [vm_compute; tauto|].
  rewrite Hh. vm_compute. intros [E|[E|[]]]; discriminate.
Defined.

Lemma processStream_progress_witness :
  demoRun twoCallsChoices (demoInit twoCalls) = Some twoCallsSettled /\
  pc twoCallsSettled <> Done /\ exists s', demoMainStep twoCallsSettled = Some s'.
Proof.
  assert (H1 : demoRun twoCallsChoices (demoInit twoCalls) = Some twoCallsSettled)
    by (vm_compute; reflexivity).
  assert (H2 : pc twoCallsSettled <> Done) by discriminate.
  split; [exact H1|]. split; [exact H2|].
  destruct (processStream_progress demoToolNames demoSpawnable demoValidate
              demoValidateCustom demoSpawnInput demoHandler [] twoCalls 100 _ _ H1 H2)
    as [Hm|[(k & s' & Hf)|((p & Hp) & _)]].
  - exact Hm.
  - exists twoCallsDone. vm_compute. reflexivity.
  - vm_compute in Hp. discriminate.
Defined.



End StreamFacts.

Module ReadDocsFacts.
Import JS ReadDocs.
Local Open Scope string_scope.

(** The JSON part every fulfilled [result] of [handleReadDocs] wraps. *)
Definition jsonPart (value : jsval) : jsval :=
  JObj [("type", JStr "json"); ("value", value)].

Lemma string_append_assoc (a b c : string) : (a ++ (b ++ c) = (a ++ b) ++ c)%string.
Proof. induction a as [|x a IH]; simpl; [reflexivity|now rewrite IH]. Qed.

Lemma catchBlock_shape logger libraryTitle t v :
  catchBlock logger libraryTitle t = Fulfilled v ->
  errorThrows logger = None /\
  v = JObj [("documentation", JStr (errMsg libraryTitle t));
            ("errorMessage", JStr (errMsg libraryTitle t))].
Proof.
  unfold catchBlock. destruct (errorThrows logger); intros H; inversion H; auto.
Qed.

(** Success: when the web API answers with a falsy [error] and a string
    [documentation], and [logger.info] returns, [handleReadDocs] resolves to
    one JSON part whose value carries that documentation unchanged and no
    [errorMessage], and [creditsUsed] resolves to the API's numeric
    [creditsUsed] (0 when it is not a number). *)
Theorem handleReadDocs_success (objectToString : jsval -> string) logger
    libraryTitle topic props d :
  truthy (get (JObj props) "error") = false ->
  get (JObj props) "documentation" = JStr d ->
  infoThrows logger = None ->
  exists value,
    handleReadDocs objectToString (Fulfilled tt) logger libraryTitle topic
      (ApiReturned props) =
      (Fulfilled [jsonPart value],
       Fulfilled (match get (JObj props) "creditsUsed" with JNum n => n | _ => 0%Z end)) /\
    get value "documentation" = JStr d /\ get value "errorMessage" = JUndefined.
Proof.
  intros He Hd Hi.
  exists (JObj [("documentation", JStr d)]).
  unfold handleReadDocs, documentationPromise. rewrite He, Hd, Hi. simpl.
  repeat split.
Qed.

(** The documentation is always text: whatever the API, the logger and the
    topic do, a fulfilled [result] is exactly one JSON part whose value has a
    string [documentation]. *)
Theorem handleReadDocs_documentation_is_string (objectToString : jsval -> string)
    prev logger libraryTitle topic api parts :
  fst (handleReadDocs objectToString prev logger libraryTitle topic api) = Fulfilled parts ->
  exists value d, parts = [jsonPart value] /\ get value "documentation" = JStr d.
Proof.
  unfold handleReadDocs.
  destruct (documentationPromise objectToString logger libraryTitle topic api) as [doc captured] eqn:Hdp.
  destruct prev as [u|t]; simpl; [|discriminate].
  destruct doc as [value|t]; [|discriminate]. intros H. inversion H; subst parts.
  exists value.
  unfold documentationPromise in Hdp.
  destruct api as [props|t].
  - destruct (truthy (get (JObj props) "error") || negb (is_string (get (JObj props) "documentation")))
      eqn:Hc.
    + destruct (warnThrows logger) as [t|].
      * inversion Hdp as [[Hcb]].
        apply catchBlock_shape in Hcb as [_ ->].
        eexists. split; reflexivity.
      * inversion Hdp. eexists. split; reflexivity.
    + apply orb_false_iff in Hc as [_ Hs]. apply negb_false_iff in Hs.
      destruct (get (JObj props) "documentation") as [| | | |d| |] eqn:Hd;
        try discriminate Hs.
      destruct (infoThrows logger) as [t|].
      * inversion Hdp as [[Hcb]].
        apply catchBlock_shape in Hcb as [_ ->].
        eexists. split; reflexivity.
      * inversion Hdp. exists d. split; reflexivity.
  - inversion Hdp as [[Hcb]].
    apply catchBlock_shape in Hcb as [_ ->].
    eexists. split; reflexivity.
Qed.

(** Failure: when the API throws, or answers with a truthy [error] or a
    non-string [documentation], and [logger.error] returns, the tool still
    resolves (after a fulfilled [previousToolCallFinished]) to one JSON part
    whose [documentation] starts with [Error fetching documentation for
    "<libraryTitle>"] and which has an [errorMessage] property, and
    [creditsUsed] resolves to 0. *)
Theorem handleReadDocs_failure (objectToString : jsval -> string) logger
    libraryTitle topic api :
  errorThrows logger = None ->
  (match api with
   | ApiThrew _ => true
   | ApiReturned props =>
       truthy (get (JObj props) "error") || negb (is_string (get (JObj props) "documentation"))
   end) = true ->
  exists value rest errorMessage,
    handleReadDocs objectToString (Fulfilled tt) logger libraryTitle topic api =
      (Fulfilled [jsonPart value], Fulfilled 0%Z) /\
    get value "documentation" = JStr (errorPrefix libraryTitle ++ rest) /\
    assoc (match value with JObj ps => ps | _ => [] end) "errorMessage" = Some errorMessage.
Proof.
  intros Herr Hc.
  unfold handleReadDocs, documentationPromise, catchBlock. rewrite Herr.
  destruct api as [props|t].
  - rewrite Hc. destruct (warnThrows logger) as [t|].
    + do 3 eexists. split; [reflexivity|]. split; reflexivity.
    + do 3 eexists. split; [reflexivity|].
      split; reflexivity.
  - do 3 eexists. split; [reflexivity|]. split; reflexivity.
Qed.

(** A thrown request: the [documentation] and the [errorMessage] are the
    same text, [Error fetching documentation for "<libraryTitle>": ] followed
    by the [Error]'s message, or [Unknown error] for any other thrown value;
    the topic is never mentioned. *)
Theorem handleReadDocs_thrown (objectToString : jsval -> string) logger
    libraryTitle topic t :
  errorThrows logger = None ->
  let m := errorPrefix libraryTitle ++ ": " ++
           match t with ThrownError msg => msg | ThrownValue _ => "Unknown error" end in
  handleReadDocs objectToString (Fulfilled tt) logger libraryTitle topic (ApiThrew t) =
    (Fulfilled [jsonPart (JObj [("documentation", JStr m); ("errorMessage", JStr m)])],
     Fulfilled 0%Z).
Proof.
  intros Herr m. unfold handleReadDocs, documentationPromise, catchBlock.
  rewrite Herr. reflexivity.
Qed.

(** A failure with a falsy [errorMessage]: when the API answers with a falsy
    [error] but no string [documentation], the tool reports an error whose
    [errorMessage] is that falsy value itself (typically [undefined]), and
    whose text ends with [": "] and the printed value. *)
Theorem handleReadDocs_falsy_errorMessage (objectToString : jsval -> string) logger
    libraryTitle topic props :
  truthy (get (JObj props) "error") = false ->
  is_string (get (JObj props) "documentation") = false ->
  warnThrows logger = None ->
  exists value pre,
    fst (handleReadDocs objectToString (Fulfilled tt) logger libraryTitle topic
           (ApiReturned props)) = Fulfilled [jsonPart value] /\
    get value "errorMessage" = get (JObj props) "error" /\
    truthy (get value "errorMessage") = false /\
    get value "documentation" =
      JStr (pre ++ ": " ++ js_String objectToString (get (JObj props) "error")).
Proof.
  intros He Hs Hw.
  unfold handleReadDocs, documentationPromise. rewrite He, Hs, Hw. simpl.
  do 2 eexists. split; [reflexivity|]. split; [reflexivity|]. split; [exact He|].
  unfold docMsg. rewrite string_append_assoc. reflexivity.
Qed.

(** A throwing [logger.info] after a successful request: the credits the API
    reported are already captured, so [creditsUsed] resolves to them while
    the tool's result is the catch block's error value. *)
Theorem handleReadDocs_info_throw_keeps_credits (objectToString : jsval -> string)
    logger libraryTitle topic props d n t :
  truthy (get (JObj props) "error") = false ->
  get (JObj props) "documentation" = JStr d ->
  get (JObj props) "creditsUsed" = JNum n ->
  infoThrows logger = Some t ->
  errorThrows logger = None ->
  handleReadDocs objectToString (Fulfilled tt) logger libraryTitle topic (ApiReturned props) =
    (Fulfilled [jsonPart (JObj [("documentation", JStr (errMsg libraryTitle t));
                                ("errorMessage", JStr (errMsg libraryTitle t))])],
     Fulfilled n).
Proof.
  intros He Hd Hn Hi Herr.
  unfold handleReadDocs, documentationPromise, catchBlock.
  rewrite He, Hd, Hn, Hi, Herr. reflexivity.
Qed.

(** The request does not wait for the previous tool call: when
    [previousToolCallFinished] rejects, the result rejects with the same
    reason, while [creditsUsed] settles exactly as after a fulfilled one. *)
Theorem handleReadDocs_previous_rejected (objectToString : jsval -> string) t logger
    libraryTitle topic api :
  handleReadDocs objectToString (Rejected t) logger libraryTitle topic api =
    (Rejected t,
     snd (handleReadDocs objectToString (Fulfilled tt) logger libraryTitle topic api)).
Proof.
  unfold handleReadDocs.
  destruct (documentationPromise objectToString logger libraryTitle topic api) as [[v|t'] c]; reflexivity.
Qed.

(** A concrete setting: objects print as [[object Object]], a logger that
    never throws and one whose [info] throws. *)
Definition plainObjectToString (_ : jsval) : string := "[object Object]".
Definition quietLogger : Logger := Build_Logger None None None.
Definition infoThrowingLogger : Logger :=
  Build_Logger None (Some (ThrownError "log sink closed")) None.
Definition docsOk : list (string * jsval) :=
  [("documentation", JStr "useState returns a pair"); ("creditsUsed", JNum 3)].
Definition docsMissing : list (string * jsval) := [("documentation", JNull)].
Definition docsError : list (string * jsval) := [("error", JStr "rate limited")].

Lemma handleReadDocs_success_witness :
  truthy (get (JObj docsOk) "error") = false /\
  get (JObj docsOk) "documentation" = JStr "useState returns a pair" /\
  infoThrows quietLogger = None /\
  exists value,
    handleReadDocs plainObjectToString (Fulfilled tt) quietLogger "react" (JStr "hooks")
      (ApiReturned docsOk) = (Fulfilled [jsonPart value], Fulfilled 3%Z) /\
    get value "documentation" = JStr "useState returns a pair" /\
    get value "errorMessage" = JUndefined.
Proof.
  split; [reflexivity|]. split; [reflexivity|]. split; [reflexivity|].
  exact (handleReadDocs_success plainObjectToString quietLogger "react" (JStr "hooks")
           docsOk "useState returns a pair" eq_refl eq_refl eq_refl).
Defined.

Lemma handleReadDocs_documentation_is_string_witness :
  fst (handleReadDocs plainObjectToString (Fulfilled tt) quietLogger "react" JUndefined
         (ApiReturned docsMissing)) =
    Fulfilled [jsonPart (JObj [("documentation",
                                JStr (errorPrefix "react" ++ ": undefined"));
                               ("errorMessage", JUndefined)])] /\
  exists value d,
    [jsonPart (JObj [("documentation", JStr (errorPrefix "react" ++ ": undefined"));
                     ("errorMessage", JUndefined)])] = [jsonPart value] /\
    get value "documentation" = JStr d.
Proof.
  assert (H : fst (handleReadDocs plainObjectToString (Fulfilled tt) quietLogger "react"
                     JUndefined (ApiReturned docsMissing)) =
              Fulfilled [jsonPart (JObj [("documentation",
                                          JStr (errorPrefix "react" ++ ": undefined"));
                                         ("errorMessage", JUndefined)])])
    by reflexivity.
  split; [exact H|].
  exact (handleReadDocs_documentation_is_string plainObjectToString (Fulfilled tt)
           quietLogger "react" JUndefined (ApiReturned docsMissing) _ H).
Defined.

Lemma handleReadDocs_failure_witness :
  errorThrows quietLogger = None /\
  exists value rest errorMessage,
    handleReadDocs plainObjectToString (Fulfilled tt) quietLogger "react" (JStr "hooks")
      (ApiReturned docsError) = (Fulfilled [jsonPart value], Fulfilled 0%Z) /\
    get value "documentation" = JStr (errorPrefix "react" ++ rest) /\
    assoc (match value with JObj ps => ps | _ => [] end) "errorMessage" = Some errorMessage.
Proof.
  split; [reflexivity|].
  exact (handleReadDocs_failure plainObjectToString quietLogger "react" (JStr "hooks")
           (ApiReturned docsError) eq_refl eq_refl).
Defined.

Lemma handleReadDocs_thrown_witness :
  errorThrows quietLogger = None /\
  handleReadDocs plainObjectToString (Fulfilled tt) quietLogger "react" (JStr "hooks")
    (ApiThrew (ThrownValue (JNum 500))) =
    (Fulfilled [jsonPart (JObj [("documentation", JStr (errorPrefix "react" ++ ": Unknown error"));
                                ("errorMessage", JStr (errorPrefix "react" ++ ": Unknown error"))])],
     Fulfilled 0%Z).
Proof.
  split; [reflexivity|].
  exact (handleReadDocs_thrown plainObjectToString quietLogger "react" (JStr "hooks")
           (ThrownValue (JNum 500)) eq_refl).
Defined.

Lemma handleReadDocs_falsy_errorMessage_witness :
  truthy (get (JObj docsMissing) "error") = false /\
  is_string (get (JObj docsMissing) "documentation") = false /\
  warnThrows quietLogger = None /\
  exists value pre,
    fst (handleReadDocs plainObjectToString (Fulfilled tt) quietLogger "react" (JStr "hooks")
           (ApiReturned docsMissing)) = Fulfilled [jsonPart value] /\
    get value "errorMessage" = JUndefined /\
    truthy (get value "errorMessage") = false /\
    get value "documentation" = JStr (pre ++ ": undefined").
Proof.
  split; [reflexivity|]. split; [reflexivity|]. split; [reflexivity|].
  exact (handleReadDocs_falsy_errorMessage plainObjectToString quietLogger "react"
           (JStr "hooks") docsMissing eq_refl eq_refl eq_refl).
Defined.

Lemma handleReadDocs_info_throw_keeps_credits_witness :
  truthy (get (JObj docsOk) "error") = false /\
  get (JObj docsOk) "documentation" = JStr "useState returns a pair" /\
  get (JObj docsOk) "creditsUsed" = JNum 3 /\
  infoThrows infoThrowingLogger = Some (ThrownError "log sink closed") /\
  errorThrows infoThrowingLogger = None /\
  handleReadDocs plainObjectToString (Fulfilled tt) infoThrowingLogger "react" JUndefined
    (ApiReturned docsOk) =
    (Fulfilled [jsonPart (JObj [("documentation", JStr (errorPrefix "react" ++ ": log sink closed"));
                                ("errorMessage", JStr (errorPrefix "react" ++ ": log sink closed"))])],
     Fulfilled 3%Z).
Proof.
  do 5 (split; [reflexivity|]).
  exact (handleReadDocs_info_throw_keeps_credits plainObjectToString infoThrowingLogger
           "react" JUndefined docsOk "useState returns a pair" 3 (ThrownError "log sink closed")
           eq_refl eq_refl eq_refl eq_refl eq_refl).
Defined.

End ReadDocsFacts.
